(** * Verification engine of the reactive-system modeler

    A shallow embedding of [backend/engine/src/Verifier.cpp]: breadth-first
    reachability, structural deadlock and livelock predicates, the
    invariant-expression evaluator and the report generator, followed by the
    properties that the specification states about them. *)

From Stdlib Require Import List String Ascii Bool Arith ZArith Lia.
From Stdlib Require Import DecimalString Sorted.
Import ListNotations.

Local Open Scope string_scope.
Local Open Scope list_scope.

(** ** Data model *)

(** Modelled from the spec: [MealyMachine.h], which declares [State],
    [Transition] and [StateMachine], is not among the sources.  The fields
    are those of section 3 of the specification, which are also the ones
    that [Verifier.cpp] reads and [addon.cc] fills in.  The two optional
    labels are [std::string]s that stay empty when the host passes none. *)
Record State : Type := mkState
  { s_id : string;
    s_name : string;
    isInitial : bool;
    isFinal : bool }.

Record Transition : Type := mkTransition
  { t_id : string;
    from : string;
    to : string;
    input : string;
    output : string }.

Record StateMachine : Type := mkStateMachine
  { m_id : string;
    m_name : string;
    m_type : string;
    states : list State;
    transitions : list Transition }.

(** Result records of [Verifier.h]. *)
Record ReachabilityResult : Type := mkReachabilityResult
  { isReachable : bool;
    path : list string;
    r_message : string }.

Record InvariantCheckResult : Type := mkInvariantCheckResult
  { holds : bool;
    failingState : string;
    failingPath : list string;
    i_message : string }.

(** [reachableStates] and [totalStates] are C++ [int]s. *)
Record VerificationReport : Type := mkVerificationReport
  { isValid : bool;
    errors : list string;
    warnings : list string;
    reachableStates : Z;
    totalStates : Z;
    deadlocks : list string;
    summary : string }.

(** ** The pieces of the C++ standard library that the engine uses *)

(** [std::set<std::string>]: its observable content is the ascending,
    duplicate-free sequence of its keys, ordered by [std::string::operator<]
    (bytes compared as unsigned values, a proper prefix first), which is
    what [String.compare] computes. *)
Module StrSet.

Definition t : Type := list string.

Definition empty : t := [].

(** [s.insert(x)] *)
Fixpoint insert (x : string) (s : t) : t :=
  match s with
  | [] => [x]
  | y :: s' =>
      match String.compare x y with
      | Lt => x :: s
      | Eq => s
      | Gt => y :: insert x s'
      end
  end.

(** [s.find(x) != s.end()] *)
Fixpoint mem (x : string) (s : t) : bool :=
  match s with
  | [] => false
  | y :: s' => String.eqb x y || mem x s'
  end.

(** [s.size()] *)
Definition size (s : t) : nat := List.length s.

(** iteration from [s.begin()] to [s.end()] *)
Definition elements (s : t) : list string := s.

End StrSet.

(** [std::find(v.begin(), v.end(), x) != v.end()] on a vector of strings. *)
Definition vec_contains (v : list string) (x : string) : bool :=
  existsb (String.eqb x) v.

(** Conversion of a [size_t] to [int]: the value modulo [2^32], read as a
    signed 32-bit number. *)
Definition int_of_size (n : nat) : Z :=
  ((Z.of_nat n + 2 ^ 31) mod 2 ^ 32 - 2 ^ 31)%Z.

(** [operator<<] on integers: decimal digits, with a sign when negative. *)
Definition show_int (z : Z) : string := NilZero.string_of_int (Z.to_int z).
Definition show_size (n : nat) : string := NilZero.string_of_uint (Nat.to_uint n).

(** [std::istringstream] and [operator>>] into a [std::string]. *)
Module IStream.

(** [std::isspace] in the classic locale: space, [\t], [\n], [\v], [\f], [\r]. *)
Definition isspace (c : ascii) : bool :=
  let n := nat_of_ascii c in
  ((n =? 32) || ((9 <=? n) && (n <=? 13)))%nat.

(** the sentry of a formatted input: leading white space is discarded *)
Fixpoint skipws (s : string) : string :=
  match s with
  | EmptyString => EmptyString
  | String c s' => if isspace c then skipws s' else s
  end.

(** characters are taken up to the next white space or the end of the
    buffer; the result is the word and what is left in the buffer *)
Fixpoint word (s : string) : string * string :=
  match s with
  | EmptyString => (EmptyString, EmptyString)
  | String c s' =>
      if isspace c then (EmptyString, s)
      else let (w, r) := word s' in (String c w, r)
  end.

(** [iss >> x] for a default-constructed [x]: the word read and the rest
    of the buffer.  When nothing but white space is left the extraction
    fails, [x] stays empty and so does every later one, which is what
    reading from the exhausted buffer gives here as well. *)
Definition extract (s : string) : string * string := word (skipws s).

End IStream.

(** [s.find(sub) != std::string::npos] *)
Definition contains (sub s : string) : bool :=
  match index 0 sub s with
  | Some _ => true
  | None => false
  end.

(** ** Reachability ([Verifier::reachableStatesBFS]) *)

(** The first loop: the id of the first state flagged initial, or the empty
    string that [initialStateId] starts with. *)
Fixpoint findInitialStateId (sts : list State) : string :=
  match sts with
  | [] => ""
  | state :: rest =>
      if isInitial state then s_id state else findInitialStateId rest
  end.

(** The two locals that the traversal updates. *)
Record BfsState : Type := mkBfs
  { queue : list string;
    reachable : StrSet.t }.

(** Body of the inner [for] loop for one transition. *)
Definition visitTransition (currentStateId : string) (st : BfsState)
    (transition : Transition) : BfsState :=
  if (from transition =? currentStateId)%string then
    if negb (StrSet.mem (to transition) (reachable st)) then
      {| queue := queue st ++ [to transition];
         reachable := StrSet.insert (to transition) (reachable st) |}
    else st
  else st.

(** The inner [for] loop over [machine.transitions]. *)
Definition visitOutgoing (ts : list Transition) (currentStateId : string)
    (st : BfsState) : BfsState :=
  fold_left (visitTransition currentStateId) ts st.

(** One turn of the [while] loop: pop the front, scan the transitions. *)
Definition bfsStep (ts : list Transition) (st : BfsState) : BfsState :=
  match queue st with
  | [] => st
  | currentStateId :: rest =>
      visitOutgoing ts currentStateId
        {| queue := rest; reachable := reachable st |}
  end.

(** [while (!queue.empty())], run for at most [fuel] turns. *)
Fixpoint bfsLoop (fuel : nat) (ts : list Transition) (st : BfsState)
    : BfsState :=
  match fuel with
  | O => st
  | S fuel' =>
      match queue st with
      | [] => st
      | _ :: _ => bfsLoop fuel' ts (bfsStep ts st)
      end
  end.

(** Every push but the first is caused by a transition whose target was
    not yet in the set, so one turn per transition plus one is enough
    ([bfsLoop_terminates] below). *)
Definition bfsFuel (m : StateMachine) : nat := S (List.length (transitions m)).

Definition bfsStart (initialStateId : string) : BfsState :=
  {| queue := [initialStateId];
     reachable := StrSet.insert initialStateId StrSet.empty |}.

Definition reachableStatesBFS (m : StateMachine) : StrSet.t :=
  let initialStateId := findInitialStateId (states m) in
  if (initialStateId =? "")%string then StrSet.empty
  else reachable (bfsLoop (bfsFuel m) (transitions m) (bfsStart initialStateId)).

(** [Verifier::isStateReachable] *)
Definition isStateReachable (m : StateMachine) (targetStateId : string)
    : ReachabilityResult :=
  if StrSet.mem targetStateId (reachableStatesBFS m) then
    {| isReachable := true; path := []; r_message := "State is reachable" |}
  else
    {| isReachable := false; path := [];
       r_message := "State is not reachable from initial state" |}.

(** [Verifier::getReachableStates] *)
Definition getReachableStates (m : StateMachine) : list string :=
  StrSet.elements (reachableStatesBFS m).

(** ** Structural analysis *)

(** [Verifier::isDeadlock] *)
Fixpoint isDeadlock_loop (ts : list Transition) (stateId : string) : bool :=
  match ts with
  | [] => true
  | transition :: rest =>
      if (from transition =? stateId)%string then false
      else isDeadlock_loop rest stateId
  end.

Definition isDeadlock (m : StateMachine) (stateId : string) : bool :=
  isDeadlock_loop (transitions m) stateId.

(** [Verifier::findDeadlocks] *)
Definition findDeadlocks (m : StateMachine) : list string :=
  fold_left
    (fun deadlocks state =>
       if isDeadlock m (s_id state) && negb (isFinal state)
       then deadlocks ++ [s_id state]
       else deadlocks)
    (states m) [].

(** [Verifier::isLivelock] *)
Fixpoint isLivelock_loop (ts : list Transition) (stateId : string) : bool :=
  match ts with
  | [] => true
  | transition :: rest =>
      if (from transition =? stateId)%string
         && negb (to transition =? stateId)%string
      then false
      else isLivelock_loop rest stateId
  end.

Definition isLivelock (m : StateMachine) (stateId : string) : bool :=
  isLivelock_loop (transitions m) stateId.

(** ** Invariant evaluation *)

(** The lookup loop of [Verifier::evaluateExpression]: the first state
    with the given id, or the null pointer. *)
Fixpoint findState (sts : list State) (currentStateId : string)
    : option State :=
  match sts with
  | [] => None
  | state :: rest =>
      if (s_id state =? currentStateId)%string then Some state
      else findState rest currentStateId
  end.

(** [iss >> state >> op >> value]: what ends up in [value]. *)
Definition parseValue (expression : string) : string :=
  let (state, rest1) := IStream.extract expression in
  let (op, rest2) := IStream.extract rest1 in
  let (value, _) := IStream.extract rest2 in
  value.

(** [Verifier::evaluateExpression] *)
Definition evaluateExpression (expression : string) (m : StateMachine)
    (currentStateId : string) : bool :=
  match findState (states m) currentStateId with
  | None => false
  | Some currentState =>
      if contains "!=" expression then
        negb (s_name currentState =? parseValue expression)%string
      else if contains "==" expression then
        (s_name currentState =? parseValue expression)%string
      else true
  end.

(** The loop of [Verifier::checkInvariant] over the reachable ids. *)
Fixpoint checkInvariant_loop (m : StateMachine) (invariantExpression : string)
    (reachableStates : list string) : InvariantCheckResult :=
  match reachableStates with
  | [] =>
      {| holds := true; failingState := ""; failingPath := [];
         i_message := "Invariant holds on all reachable states" |}
  | stateId :: rest =>
      if negb (evaluateExpression invariantExpression m stateId) then
        {| holds := false; failingState := stateId;
           failingPath := [stateId];
           i_message := "Invariant violated at state: " ++ stateId |}
      else checkInvariant_loop m invariantExpression rest
  end.

(** [Verifier::checkInvariant] *)
Definition checkInvariant (m : StateMachine) (invariantExpression : string)
    : InvariantCheckResult :=
  checkInvariant_loop m invariantExpression (getReachableStates m).

(** ** Final-state reachability ([Verifier::canReachFinalState]) *)

Fixpoint canReachFinalState_loop (reachable : StrSet.t) (sts : list State)
    : ReachabilityResult :=
  match sts with
  | [] =>
      {| isReachable := false; path := [];
         r_message := "No final state reachable" |}
  | state :: rest =>
      if isFinal state && StrSet.mem (s_id state) reachable then
        {| isReachable := true; path := [];
           r_message := "Final state '" ++ s_name state ++ "' is reachable" |}
      else canReachFinalState_loop reachable rest
  end.

Definition canReachFinalState (m : StateMachine) : ReachabilityResult :=
  canReachFinalState_loop (reachableStatesBFS m) (states m).

(** ** Report generation ([Verifier::generateReport]) *)

(** The report is one local record that the function updates step by
    step; each step below is a function from report to report. *)
Definition initReport : VerificationReport :=
  {| isValid := true; errors := []; warnings := [];
     reachableStates := 0; totalStates := 0; deadlocks := []; summary := "" |}.

(** [report.isValid = false; report.errors.push_back(msg);] *)
Definition addError (msg : string) (r : VerificationReport)
    : VerificationReport :=
  {| isValid := false; errors := errors r ++ [msg]; warnings := warnings r;
     reachableStates := reachableStates r; totalStates := totalStates r;
     deadlocks := deadlocks r; summary := summary r |}.

(** [report.warnings.push_back(msg);] *)
Definition addWarning (msg : string) (r : VerificationReport)
    : VerificationReport :=
  {| isValid := isValid r; errors := errors r; warnings := warnings r ++ [msg];
     reachableStates := reachableStates r; totalStates := totalStates r;
     deadlocks := deadlocks r; summary := summary r |}.

Definition setCounts (reach total : Z) (r : VerificationReport)
    : VerificationReport :=
  {| isValid := isValid r; errors := errors r; warnings := warnings r;
     reachableStates := reach; totalStates := total;
     deadlocks := deadlocks r; summary := summary r |}.

Definition setDeadlocks (d : list string) (r : VerificationReport)
    : VerificationReport :=
  {| isValid := isValid r; errors := errors r; warnings := warnings r;
     reachableStates := reachableStates r; totalStates := totalStates r;
     deadlocks := d; summary := summary r |}.

Definition setSummary (s : string) (r : VerificationReport)
    : VerificationReport :=
  {| isValid := isValid r; errors := errors r; warnings := warnings r;
     reachableStates := reachableStates r; totalStates := totalStates r;
     deadlocks := deadlocks r; summary := s |}.

(** [initialCount]: an [int] incremented once per flagged state.  Signed
    overflow has no defined result, so the count is a natural number and
    the model describes the runs in which it stays below [2^31]. *)
Definition initialCount (sts : list State) : nat :=
  fold_left (fun count state => if isInitial state then S count else count)
    sts 0.

(** Step 1: the initial-state check. *)
Definition checkInitialState (m : StateMachine) (r : VerificationReport)
    : VerificationReport :=
  if (initialCount (states m) =? 0)%nat then
    addError "ERROR: No initial state defined" r
  else if (1 <? initialCount (states m))%nat then
    addError "ERROR: Multiple initial states defined" r
  else r.

(** The inner loop of step 2: the flags [fromExists] and [toExists]. *)
Definition endpointsExist (sts : list State) (transition : Transition)
    : bool * bool :=
  fold_left
    (fun (flags : bool * bool) state =>
       let (fromExists, toExists) := flags in
       ((if (s_id state =? from transition)%string then true else fromExists),
        (if (s_id state =? to transition)%string then true else toExists)))
    sts (false, false).

(** Body of the outer loop of step 2. *)
Definition checkTransition (m : StateMachine) (r : VerificationReport)
    (transition : Transition) : VerificationReport :=
  let (fromExists, toExists) := endpointsExist (states m) transition in
  let r1 :=
    if negb fromExists then
      addError ("ERROR: Transition from non-existent state: " ++ from transition) r
    else r in
  if negb toExists then
    addError ("ERROR: Transition to non-existent state: " ++ to transition) r1
  else r1.

(** Step 2: the transition check. *)
Definition checkTransitions (m : StateMachine) (r : VerificationReport)
    : VerificationReport :=
  fold_left (checkTransition m) (transitions m) r.

(** Body of the warning loop of step 4. *)
Definition warnUnreachable (reachable : list string) (r : VerificationReport)
    (state : State) : VerificationReport :=
  if negb (vec_contains reachable (s_id state)) then
    addWarning ("WARNING: Unreachable state: " ++ s_name state) r
  else r.

(** Steps 3 and 4: the counts, and the warnings for unreachable states. *)
Definition reachabilityAnalysis (m : StateMachine) (r : VerificationReport)
    : VerificationReport :=
  let reachable := getReachableStates m in
  let r1 :=
    setCounts (int_of_size (List.length reachable))
      (int_of_size (List.length (states m))) r in
  if (reachableStates r1 <? totalStates r1)%Z then
    fold_left (warnUnreachable reachable) (states m) r1
  else r1.

(** Step 5: deadlock detection. *)
Definition deadlockDetection (m : StateMachine) (r : VerificationReport)
    : VerificationReport :=
  let r1 := setDeadlocks (findDeadlocks m) r in
  match deadlocks r1 with
  | [] => r1
  | _ :: _ =>
      fold_left
        (fun r' deadlock =>
           addWarning ("WARNING: Potential deadlock state: " ++ deadlock) r')
        (deadlocks r1) r1
  end.

(** Step 6: final-state reachability. *)
Definition finalStateCheck (m : StateMachine) (r : VerificationReport)
    : VerificationReport :=
  if negb (isReachable (canReachFinalState m)) then
    addWarning "WARNING: No final state is reachable" r
  else r.

(** Step 7: the summary line. *)
Definition makeSummary (m : StateMachine) (r : VerificationReport)
    : VerificationReport :=
  setSummary
    ("States: " ++ show_int (totalStates r)
     ++ " (Reachable: " ++ show_int (reachableStates r) ++ ")"
     ++ " | Transitions: " ++ show_size (List.length (transitions m))
     ++ " | Status: " ++ (if isValid r then "VALID" else "INVALID"))%string
    r.

Definition generateReport (m : StateMachine) : VerificationReport :=
  makeSummary m
    (finalStateCheck m
       (deadlockDetection m
          (reachabilityAnalysis m
             (checkTransitions m
                (checkInitialState m initReport))))).

(** ** Machines used as examples *)

Definition st (id name : string) (ini fin : bool) : State :=
  {| s_id := id; s_name := name; isInitial := ini; isFinal := fin |}.

Definition tr (id f t : string) : Transition :=
  {| t_id := id; from := f; to := t; input := ""; output := "" |}.

Definition machine (sts : list State) (ts : list Transition) : StateMachine :=
  {| m_id := "m"; m_name := "machine"; m_type := "moore";
     states := sts; transitions := ts |}.

(** Scenario 1 of the specification: A (initial), B, C (final); A->B, B->C. *)
Definition scenario1 : StateMachine :=
  machine [st "A" "A" true false; st "B" "B" false false; st "C" "C" false true]
          [tr "t1" "A" "B"; tr "t2" "B" "C"].

(** ** Notions used to state the properties *)

(** Transitions whose target is not yet in the set. *)
Definition pending (ts : list Transition) (r : StrSet.t) : nat :=
  List.length (filter (fun t => negb (StrSet.mem (to t) r)) ts).

(** The quantity that every turn of the [while] loop decreases. *)
Definition bfsMeasure (ts : list Transition) (st : BfsState) : nat :=
  List.length (queue st) + pending ts (reachable st).

(** Identifiers that can be reached from [a] along the edges of [ts]. *)
Inductive Reach (ts : list Transition) (a : string) : string -> Prop :=
  | Reach_refl : Reach ts a a
  | Reach_step (t : Transition) :
      Reach ts a (from t) -> In t ts -> Reach ts a (to t).

(** What holds of the two locals at the head of the [while] loop, for a
    traversal of [ts] started at [init]. *)
Record bfsInv (ts : list Transition) (init : string) (st : BfsState)
    : Prop := mkBfsInv
  { inv_init : In init (reachable st);
    inv_queue : forall x, In x (queue st) -> In x (reachable st);
    inv_closed : forall s, In s (reachable st) ->
      In s (queue st) \/
      (forall t, In t ts -> from t = s -> In (to t) (reachable st));
    inv_sound : forall x, In x (reachable st) -> Reach ts init x;
    inv_nodup : NoDup (reachable st) }.

(** [sub] occurs somewhere in [s]. *)
Definition Substring (sub s : string) : Prop :=
  exists p q : string, s = (p ++ sub ++ q)%string.

(** The white-space separated tokens of a string, in order: maximal runs
    of characters that are not white space.  [acc] is the token being
    read. *)
Fixpoint splitWs (s acc : string) : list string :=
  match s with
  | EmptyString =>
      match acc with EmptyString => [] | _ => [acc] end
  | String c s' =>
      if IStream.isspace c then
        match acc with
        | EmptyString => splitWs s' EmptyString
        | _ => acc :: splitWs s' EmptyString
        end
      else splitWs s' (acc ++ String c EmptyString)
  end.

Definition tokens (s : string) : list string := splitWs s EmptyString.

(** The third token, read as the empty string when there are fewer. *)
Definition thirdToken (s : string) : string := nth 2 (tokens s) "".

(** [s] is the first state of the list whose id is [x]: the state that
    the identifier [x] stands for. *)
Definition firstWithId (sts : list State) (x : string) (s : State) : Prop :=
  exists pre post,
    sts = pre ++ s :: post /\ s_id s = x /\
    forall p, In p pre -> s_id p <> x.

(** A state has no outgoing transition. *)
Definition noOutgoing (ts : list Transition) (x : string) : bool :=
  forallb (fun t => negb (from t =? x)%string) ts.

(** A final state whose identifier is in the set [r]. *)
Definition reachableFinal (r : StrSet.t) (s : State) : bool :=
  isFinal s && StrSet.mem (s_id s) r.

(** Exactly one entry of the state list is flagged initial. *)
Definition exactlyOneInitial (sts : list State) : Prop :=
  exists pre s post,
    sts = pre ++ s :: post /\ isInitial s = true /\
    forall p, In p (pre ++ post) -> isInitial p = false.

(** [x] is the id of a state of the list. *)
Definition isStateId (sts : list State) (x : string) : Prop :=
  exists s, In s sts /\ s_id s = x.

(** Both ends of every transition name a state of the machine. *)
Definition endpointsValid (m : StateMachine) : Prop :=
  forall t, In t (transitions m) ->
    isStateId (states m) (from t) /\ isStateId (states m) (to t).

(** What the steps after the two structural checks leave alone: they only
    add warnings and fill in the deadlock list and the summary. *)
Record extends (r r' : VerificationReport) : Prop := mkExtends
  { ext_valid : isValid r' = isValid r;
    ext_errors : errors r' = errors r;
    ext_reach : reachableStates r' = reachableStates r;
    ext_total : totalStates r' = totalStates r;
    ext_warn : forall w, In w (warnings r) -> In w (warnings r') }.

(** What [generateReport] does after step 2. *)
Definition laterSteps (m : StateMachine) (r : VerificationReport)
    : VerificationReport :=
  makeSummary m
    (finalStateCheck m (deadlockDetection m (reachabilityAnalysis m r))).

(** Both ends of [t] are ids of states of [m]. *)
Definition bothExist (m : StateMachine) (t : Transition) : bool :=
  existsb (fun s => (s_id s =? from t)%string) (states m)
  && existsb (fun s => (s_id s =? to t)%string) (states m).

(** The warnings that the loop of step 4 produces for the states [sts]. *)
Definition unreachableWarnings (reach : list string) (sts : list State)
    : list string :=
  map (fun s => ("WARNING: Unreachable state: " ++ s_name s)%string)
      (filter (fun s => negb (vec_contains reach (s_id s))) sts).

(** The warnings of step 5. *)
Definition deadlockWarnings (ds : list string) : list string :=
  map (fun d => ("WARNING: Potential deadlock state: " ++ d)%string) ds.

(** The error of step 1. *)
Definition initialErrors (sts : list State) : list string :=
  if (initialCount sts =? 0)%nat then ["ERROR: No initial state defined"]
  else if (1 <? initialCount sts)%nat
       then ["ERROR: Multiple initial states defined"]
       else [].

(** The errors of step 2 for one transition. *)
Definition endpointErrors (m : StateMachine) (t : Transition) : list string :=
  (if existsb (fun s => (s_id s =? from t)%string) (states m) then []
   else [("ERROR: Transition from non-existent state: " ++ from t)%string])
  ++
  (if existsb (fun s => (s_id s =? to t)%string) (states m) then []
   else [("ERROR: Transition to non-existent state: " ++ to t)%string]).

(** A machine with a dangling transition target: A (initial), B; A -> X. *)
Definition danglingMachine : StateMachine :=
  machine [st "A" "A" true false; st "B" "B" false false]
          [tr "t1" "A" "X"].

(** The dangling target is counted: what C10 says about a machine [m] and
    one of its transitions [t]. *)
Definition countsDangling (m : StateMachine) (t : Transition) : Prop :=
  In t (transitions m) /\
  ~ isStateId (states m) (to t) /\
  In (to t) (reachableStatesBFS m) /\
  reachableStates (generateReport m)
    = Z.of_nat (StrSet.size (reachableStatesBFS m)) /\
  (Z.of_nat (List.length
     (filter (fun s => StrSet.mem (s_id s) (reachableStatesBFS m))
             (states m)))
   < reachableStates (generateReport m))%Z /\
  exists s, In s (states m) /\ ~ In (s_id s) (reachableStatesBFS m).

(** A (initial), B; A -> X and A -> Y: two dangling targets. *)
Definition danglingMachine2 : StateMachine :=
  machine [st "A" "A" true false; st "B" "B" false false]
          [tr "t1" "A" "X"; tr "t2" "A" "Y"].

(** A (initial) with a transition to X, which names no state. *)
Definition danglingInvariantMachine : StateMachine :=
  machine [st "A" "A" true false] [tr "t1" "A" "X"].

(** One state, flagged initial, whose id is the empty string. *)
Definition emptyIdMachine : StateMachine :=
  machine [st "" "Start" true false] [].

(** The first flagged state has the empty id and an edge to B. *)
Definition emptyIdSeedMachine : StateMachine :=
  machine [st "" "Start" true false; st "B" "B" false false]
          [tr "t1" "" "B"].

(** Spec scenario 4: A and D are both flagged initial, A -> B. *)
Definition scenario4 : StateMachine :=
  machine [st "A" "A" true false; st "B" "B" false false;
           st "D" "D" true false]
          [tr "t1" "A" "B"].

(** Spec scenario 3: no state is flagged initial. *)
Definition scenario3 : StateMachine :=
  machine [st "A" "A" false false; st "B" "B" false false]
          [tr "t1" "A" "B"].

(** [std::string::operator<] *)
Definition str_lt (a b : string) : Prop := String.compare a b = Lt.

From Stdlib Require OrdersEx.

(** ** Notions used to state further properties of the engine *)

(** The two fields of a transition that the engine reads. *)
Definition endpoints (t : Transition) : string * string := (from t, to t).

(** Two machines with the same state list and, position by position, the
    same transition endpoints: they may differ in machine id, name and
    type and in the id and labels of every transition. *)
Definition sameGraph (m m' : StateMachine) : Prop :=
  states m = states m' /\
  map endpoints (transitions m) = map endpoints (transitions m').

(** Every edge of [ts] is an edge of [ts']. *)
Definition edgesIncluded (ts ts' : list Transition) : Prop :=
  forall t, In t ts -> exists t', In t' ts' /\ endpoints t' = endpoints t.

(** Scenario 1 without its second transition. *)
Definition scenario1Cut : StateMachine :=
  machine (states scenario1) [tr "t1" "A" "B"].

(** The string contains a white-space character. *)
Definition hasSpace (s : string) : bool :=
  existsb IStream.isspace (list_ascii_of_string s).

(** What a report without warnings says about the machine. *)
Definition allReachable (m : StateMachine) : Prop :=
  forall s, In s (states m) -> In (s_id s) (reachableStatesBFS m).

Definition noDeadEnd (m : StateMachine) : Prop :=
  forall s, In s (states m) -> isFinal s = false ->
    exists t, In t (transitions m) /\ from t = s_id s.

Definition finalReachable (m : StateMachine) : Prop :=
  exists s, In s (states m) /\ isFinal s = true /\
            In (s_id s) (reachableStatesBFS m).

(** Two states; the second has a display name that contains a space. *)
Definition spacedMachine : StateMachine :=
  machine [st "A" "A" true false; st "S" "My State" false false]
          [tr "t1" "A" "S"].

(** ** The host boundary ([backend/native/addon.cc]) *)

(** The part of node-addon-api that the addon uses.  The values are the
    plain-data JavaScript values (no functions, accessors or proxies); a
    string is held by its UTF-8 bytes, which is what [Utf8Value] gives
    and [String::New] takes; a number is held as an integer, the only
    numbers the addon creates.  A wrapper call that fails throws a
    [Napi::Error]; here it returns the status of the failed call. *)
Module Napi.

#[warnings="-register-all"]
Inductive Value : Type :=
  | Undefined
  | Null
  | Bool (b : bool)
  | Num (n : Z)
  | Str (s : string)
  | Arr (elements : list Value)
  | Obj (properties : list (string * Value)).

(** The statuses that the calls below can end with when they fail. *)
Inductive status : Type :=
  | object_expected
  | string_expected
  | boolean_expected
  | array_expected.

(** A computation that may throw. *)
Definition M (A : Type) : Type := status + A.

Definition ret {A : Type} (a : A) : M A := inr a.

Definition throw {A : Type} (e : status) : M A := inl e.

Definition bind {A B : Type} (c : M A) (k : A -> M B) : M B :=
  match c with
  | inl e => inl e
  | inr a => k a
  end.

(** [value.IsObject()]: arrays are objects, [null] is not. *)
Definition IsObject (v : Value) : bool :=
  match v with
  | Arr _ | Obj _ => true
  | _ => false
  end.

(** [value.IsUndefined()] *)
Definition IsUndefined (v : Value) : bool :=
  match v with
  | Undefined => true
  | _ => false
  end.

(** The value stored under a property name, [undefined] when there is
    none. *)
Fixpoint lookup (key : string) (properties : list (string * Value)) : Value :=
  match properties with
  | [] => Undefined
  | (k, v) :: rest => if (k =? key)%string then v else lookup key rest
  end.

(** [object.Get(name)], for the property names that the addon reads
    (none of them is a property of an array or of a boxed primitive):
    [undefined] and [null] cannot be read from, every other value that
    is not an object with that property gives [undefined]. *)
Definition Get (v : Value) (key : string) : M Value :=
  match v with
  | Obj properties => ret (lookup key properties)
  | Undefined | Null => throw object_expected
  | _ => ret Undefined
  end.

(** [value.As<String>().Utf8Value()] *)
Definition Utf8Value (v : Value) : M string :=
  match v with
  | Str s => ret s
  | _ => throw string_expected
  end.

(** [value.As<Boolean>()] converted to [bool] *)
Definition BooleanValue (v : Value) : M bool :=
  match v with
  | Bool b => ret b
  | _ => throw boolean_expected
  end.

(** [value.As<Array>().Length()] *)
Definition Length (v : Value) : M nat :=
  match v with
  | Arr elements => ret (List.length elements)
  | _ => throw array_expected
  end.

(** [array.Get(i)]: the element, [undefined] past the end. *)
Definition GetIndex (v : Value) (i : nat) : Value :=
  match v with
  | Arr elements => nth i elements Undefined
  | _ => Undefined
  end.

(** [for (uint32_t i = start; i < start + count; i++)] with a body that
    updates [a] and may throw. *)
Fixpoint forIndex {A : Type} (body : nat -> A -> M A) (i count : nat) (a : A)
    : M A :=
  match count with
  | O => ret a
  | S count' => bind (body i a) (forIndex body (S i) count')
  end.

(** What a callback leaves behind: the value it returns, or the pending
    [TypeError] it has thrown (its [env.Null()] return is then unused). *)
Inductive Outcome : Type :=
  | Returned (v : Value)
  | ThrewTypeError (message : string).

End Napi.

Notation "x <- c ;; k" := (Napi.bind c (fun x => k))
  (at level 61, c at next level, right associativity).

(** The fields of one element of the [states] array. *)
Definition convertState (stateObj : Napi.Value) : Napi.M State :=
  idV <- Napi.Get stateObj "id" ;;
  id <- Napi.Utf8Value idV ;;
  nameV <- Napi.Get stateObj "name" ;;
  name <- Napi.Utf8Value nameV ;;
  isInitialV <- Napi.Get stateObj "isInitial" ;;
  isInitial <- Napi.BooleanValue isInitialV ;;
  isFinalV <- Napi.Get stateObj "isFinal" ;;
  isFinal <- Napi.BooleanValue isFinalV ;;
  Napi.ret {| s_id := id; s_name := name;
              isInitial := isInitial; isFinal := isFinal |}.

(** An optional label: read only when the property is not [undefined]. *)
Definition optionalLabel (transObj : Napi.Value) (key : string)
    : Napi.M string :=
  v <- Napi.Get transObj key ;;
  if negb (Napi.IsUndefined v) then Napi.Utf8Value v else Napi.ret "".

(** The fields of one element of the [transitions] array. *)
Definition convertTransition (transObj : Napi.Value) : Napi.M Transition :=
  idV <- Napi.Get transObj "id" ;;
  id <- Napi.Utf8Value idV ;;
  fromV <- Napi.Get transObj "from" ;;
  from <- Napi.Utf8Value fromV ;;
  toV <- Napi.Get transObj "to" ;;
  to <- Napi.Utf8Value toV ;;
  input <- optionalLabel transObj "input" ;;
  output <- optionalLabel transObj "output" ;;
  Napi.ret {| t_id := id; from := from; to := to;
              input := input; output := output |}.

(** One of the two conversion loops: element [i] is converted and pushed
    at the back. *)
Definition convertElements {A : Type} (convert : Napi.Value -> Napi.M A)
    (array : Napi.Value) : Napi.M (list A) :=
  n <- Napi.Length array ;;
  Napi.forIndex
    (fun i acc =>
       x <- convert (Napi.GetIndex array i) ;;
       Napi.ret (acc ++ [x]))
    0 n [].

(** [convertJSStateMachine] *)
Definition convertJSStateMachine (jsStateMachine : Napi.Value)
    : Napi.M StateMachine :=
  idV <- Napi.Get jsStateMachine "id" ;;
  id <- Napi.Utf8Value idV ;;
  nameV <- Napi.Get jsStateMachine "name" ;;
  name <- Napi.Utf8Value nameV ;;
  typeV <- Napi.Get jsStateMachine "type" ;;
  type <- Napi.Utf8Value typeV ;;
  statesArray <- Napi.Get jsStateMachine "states" ;;
  states <- convertElements convertState statesArray ;;
  transitionsArray <- Napi.Get jsStateMachine "transitions" ;;
  transitions <- convertElements convertTransition transitionsArray ;;
  Napi.ret {| m_id := id; m_name := name;
              m_type := if (type =? "mealy")%string then "mealy" else "moore";
              states := states; transitions := transitions |}.

(** An array of strings, filled index by index. *)
Definition stringArray (l : list string) : Napi.Value :=
  Napi.Arr (map Napi.Str l).

(** The result object of [VerifyStateMachine]. *)
Definition reportObject (report : VerificationReport) : Napi.Value :=
  Napi.Obj
    [ ("isValid", Napi.Bool (isValid report));
      ("reachableStates", Napi.Num (reachableStates report));
      ("totalStates", Napi.Num (totalStates report));
      ("summary", Napi.Str (summary report));
      ("errors", stringArray (errors report));
      ("warnings", stringArray (warnings report));
      ("deadlocks", stringArray (deadlocks report)) ].

(** The result object of [CheckReachability]. *)
Definition reachabilityObject (result : ReachabilityResult) : Napi.Value :=
  Napi.Obj
    [ ("isReachable", Napi.Bool (isReachable result));
      ("message", Napi.Str (r_message result)) ].

Section Addon.

(** [e.what()] for the error that a failed call throws: the text that the
    host attaches to each status is not part of these sources. *)
Variable what : Napi.status -> string.

(** The [catch] clause shared by the three callbacks. *)
Definition catchError (c : Napi.M Napi.Value) : Napi.Outcome :=
  match c with
  | inr v => Napi.Returned v
  | inl e => Napi.ThrewTypeError ("C++ Error: " ++ what e)
  end.

(** [VerifyStateMachine]; [info] holds the arguments of the call. *)
Definition VerifyStateMachine (info : list Napi.Value) : Napi.Outcome :=
  if (List.length info <? 1)%nat
     || negb (Napi.IsObject (nth 0 info Napi.Undefined))
  then Napi.ThrewTypeError "State machine object expected"
  else
    catchError
      (machine <- convertJSStateMachine (nth 0 info Napi.Undefined) ;;
       Napi.ret (reportObject (generateReport machine))).

(** [CheckReachability] *)
Definition CheckReachability (info : list Napi.Value) : Napi.Outcome :=
  if (List.length info <? 2)%nat
  then Napi.ThrewTypeError "State machine and target state ID expected"
  else
    catchError
      (targetStateId <- Napi.Utf8Value (nth 1 info Napi.Undefined) ;;
       machine <- convertJSStateMachine (nth 0 info Napi.Undefined) ;;
       Napi.ret (reachabilityObject (isStateReachable machine targetStateId))).

(** [FindDeadlocks] *)
Definition FindDeadlocks (info : list Napi.Value) : Napi.Outcome :=
  if (List.length info <? 1)%nat
     || negb (Napi.IsObject (nth 0 info Napi.Undefined))
  then Napi.ThrewTypeError "State machine object expected"
  else
    catchError
      (machine <- convertJSStateMachine (nth 0 info Napi.Undefined) ;;
       Napi.ret (stringArray (findDeadlocks machine))).

(** [Init]: the names under which the callbacks are exported. *)
Definition Init : list (string * (list Napi.Value -> Napi.Outcome)) :=
  [ ("verifyStateMachine", VerifyStateMachine);
    ("checkReachability", CheckReachability);
    ("findDeadlocks", FindDeadlocks) ].

End Addon.

(** ** Notions used to state the properties of the boundary *)

(** All elements convert, in order. *)
Fixpoint mapM {A : Type} (convert : Napi.Value -> Napi.M A)
    (l : list Napi.Value) : Napi.M (list A) :=
  match l with
  | [] => Napi.ret []
  | v :: rest =>
      x <- convert v ;;
      xs <- mapM convert rest ;;
      Napi.ret (x :: xs)
  end.

(** The JavaScript object for a state. *)
Definition jsState (s : State) : Napi.Value :=
  Napi.Obj
    [ ("id", Napi.Str (s_id s)); ("name", Napi.Str (s_name s));
      ("isInitial", Napi.Bool (isInitial s));
      ("isFinal", Napi.Bool (isFinal s)) ].

(** A label as the host passes it: left out when it is empty. *)
Definition jsLabel (key label : string) : list (string * Napi.Value) :=
  if (label =? "")%string then [] else [(key, Napi.Str label)].

(** The JavaScript object for a transition. *)
Definition jsTransition (t : Transition) : Napi.Value :=
  Napi.Obj
    ([ ("id", Napi.Str (t_id t)); ("from", Napi.Str (from t));
       ("to", Napi.Str (to t)) ]
     ++ jsLabel "input" (input t) ++ jsLabel "output" (output t)).

(** The JavaScript object for a machine. *)
Definition jsMachine (m : StateMachine) : Napi.Value :=
  Napi.Obj
    [ ("id", Napi.Str (m_id m)); ("name", Napi.Str (m_name m));
      ("type", Napi.Str (m_type m));
      ("states", Napi.Arr (map jsState (states m)));
      ("transitions", Napi.Arr (map jsTransition (transitions m))) ].

(** The machine with its type tag as the conversion leaves it. *)
Definition normalizeType (m : StateMachine) : StateMachine :=
  {| m_id := m_id m; m_name := m_name m;
     m_type := if (m_type m =? "mealy")%string then "mealy" else "moore";
     states := states m; transitions := transitions m |}.


(** * Properties *)

(** ** The string set *)

Module StrSetFacts.

Lemma mem_In (x : string) (s : StrSet.t) :
  StrSet.mem x s = true <-> In x s.
Proof.
  induction s as [|y s IH]; simpl.
  - split; [discriminate | tauto].
  - rewrite orb_true_iff, IH, String.eqb_eq. split; intros [H|H]; auto.
Qed.

Lemma mem_false (x : string) (s : StrSet.t) :
  StrSet.mem x s = false <-> ~ In x s.
Proof.
  rewrite <- mem_In. destruct (StrSet.mem x s); split; congruence.
Qed.

Lemma insert_In (x y : string) (s : StrSet.t) :
  In y (StrSet.insert x s) <-> y = x \/ In y s.
Proof.
  induction s as [|a s IH]; simpl.
  - intuition.
  - destruct (String.compare x a) eqn:E; simpl.
    + apply String.compare_eq_iff in E. subst a. intuition.
    + intuition.
    + rewrite IH. intuition.
Qed.

Lemma insert_NoDup (x : string) (s : StrSet.t) :
  ~ In x s -> NoDup s -> NoDup (StrSet.insert x s).
Proof.
  induction s as [|a s IH]; simpl; intros Hx Hs.
  - constructor; [simpl; tauto | constructor].
  - destruct (String.compare x a) eqn:E.
    + assumption.
    + constructor; assumption.
    + inversion Hs; subst. constructor.
      * rewrite insert_In. intros [->|H]; [apply Hx; now left | contradiction].
      * apply IH; [intro; apply Hx; now right | assumption].
Qed.

Lemma insert_size (x : string) (s : StrSet.t) :
  ~ In x s -> StrSet.size (StrSet.insert x s) = S (StrSet.size s).
Proof.
  unfold StrSet.size. induction s as [|a s IH]; simpl; intros Hx.
  - reflexivity.
  - destruct (String.compare x a) eqn:E; simpl.
    + apply String.compare_eq_iff in E. subst a. exfalso. apply Hx. now left.
    + reflexivity.
    + rewrite IH; [reflexivity | intro; apply Hx; now right].
Qed.

End StrSetFacts.

Import StrSetFacts.

(** ** Reachability: termination of the traversal *)

Section Traversal.

Variable ts : list Transition.

Lemma filter_length_mono {A : Type} (f g : A -> bool) (l : list A) :
  (forall a, In a l -> f a = true -> g a = true) ->
  List.length (filter f l) <= List.length (filter g l).
Proof.
  induction l as [|a l IH]; simpl; intros H; [lia|].
  assert (IH' := IH (fun b Hb => H b (or_intror Hb))).
  destruct (f a) eqn:Ef.
  - rewrite (H a (or_introl eq_refl) Ef). simpl. lia.
  - destruct (g a); simpl; lia.
Qed.

Lemma filter_length_strict {A : Type} (f g : A -> bool) (l : list A) (x : A) :
  (forall a, In a l -> f a = true -> g a = true) ->
  In x l -> f x = false -> g x = true ->
  List.length (filter f l) < List.length (filter g l).
Proof.
  induction l as [|a l IH]; simpl; intros H Hx Hf Hg; [contradiction|].
  assert (Hl : forall b, In b l -> f b = true -> g b = true)
    by (intros b Hb; apply H; now right).
  destruct Hx as [->|Hx].
  - rewrite Hf, Hg. simpl. pose proof (filter_length_mono f g l Hl). lia.
  - specialize (IH Hl Hx Hf Hg). destruct (f a) eqn:Ef.
    + rewrite (H a (or_introl eq_refl) Ef). simpl. lia.
    + destruct (g a); simpl; lia.
Qed.

Lemma pending_insert (t : Transition) (r : StrSet.t) :
  In t ts -> StrSet.mem (to t) r = false ->
  pending ts (StrSet.insert (to t) r) < pending ts r.
Proof.
  intros Ht Hm. unfold pending.
  apply filter_length_strict with (x := t); auto.
  - intros a _ Ha. apply negb_true_iff in Ha. apply negb_true_iff.
    apply mem_false in Ha. apply mem_false. intro Hin. apply Ha.
    apply insert_In. now right.
  - apply negb_false_iff. apply mem_In, insert_In. now left.
  - now rewrite Hm.
Qed.

Lemma visitTransition_measure (cur : string) (st : BfsState) (t : Transition) :
  In t ts -> bfsMeasure ts (visitTransition cur st t) <= bfsMeasure ts st.
Proof.
  intros Ht. unfold visitTransition.
  destruct (from t =? cur)%string; [|lia].
  destruct (StrSet.mem (to t) (reachable st)) eqn:Hm; simpl; [lia|].
  unfold bfsMeasure; simpl. rewrite length_app; simpl.
  pose proof (pending_insert t (reachable st) Ht Hm). lia.
Qed.

Lemma fold_visit_measure (cur : string) (l : list Transition) :
  forall st, incl l ts ->
    bfsMeasure ts (fold_left (visitTransition cur) l st) <= bfsMeasure ts st.
Proof.
  induction l as [|t l IH]; simpl; intros st Hincl; [lia|].
  etransitivity.
  - apply IH. intros x Hx. apply Hincl. now right.
  - apply visitTransition_measure. apply Hincl. now left.
Qed.

Lemma bfsStep_measure (st : BfsState) :
  queue st <> [] -> bfsMeasure ts (bfsStep ts st) < bfsMeasure ts st.
Proof.
  unfold bfsStep. destruct (queue st) as [|cur rest] eqn:Hq; [congruence|].
  intros _. unfold visitOutgoing.
  pose proof (fold_visit_measure cur ts
                {| queue := rest; reachable := reachable st |}
                (incl_refl ts)) as H.
  unfold bfsMeasure in *; simpl in *. rewrite Hq. simpl. lia.
Qed.

(** With at least [bfsMeasure ts st] turns of fuel the loop is left through
    its condition: the queue is empty. *)
Lemma bfsLoop_queue_empty (fuel : nat) :
  forall st, bfsMeasure ts st <= fuel -> queue (bfsLoop fuel ts st) = [].
Proof.
  induction fuel as [|fuel IH]; intros st Hm; simpl.
  - unfold bfsMeasure in Hm. destruct (queue st); [reflexivity | simpl in Hm; lia].
  - destruct (queue st) eqn:Hq; [assumption|].
    apply IH.
    assert (queue st <> []) as Hne by (rewrite Hq; discriminate).
    pose proof (bfsStep_measure st Hne). lia.
Qed.

Lemma pending_le (r : StrSet.t) : pending ts r <= List.length ts.
Proof. unfold pending. apply List.filter_length_le. Qed.

(** More fuel changes nothing once the queue is empty. *)
Lemma bfsLoop_done (fuel : nat) (st : BfsState) :
  queue st = [] -> bfsLoop fuel ts st = st.
Proof. intros Hq. destruct fuel; simpl; [|rewrite Hq]; reflexivity. Qed.

(** A property kept by every turn of the loop holds when it stops. *)
Lemma bfsLoop_invariant (P : BfsState -> Prop) :
  (forall st, P st -> queue st <> [] -> P (bfsStep ts st)) ->
  forall fuel st, P st -> P (bfsLoop fuel ts st).
Proof.
  intros Hstep. induction fuel as [|fuel IH]; intros st HP; simpl; [assumption|].
  destruct (queue st) eqn:Hq; [assumption|].
  apply IH, Hstep; [assumption | rewrite Hq; discriminate].
Qed.

End Traversal.

(** ** Reachability: what the traversal computes *)

Section TraversalInvariant.

Variable ts : list Transition.
Variable init : string.

Lemma fold_left_invariant {A B : Type} (f : A -> B -> A) (P : A -> Prop)
    (l : list B) :
  (forall a b, In b l -> P a -> P (f a b)) ->
  forall a, P a -> P (fold_left f l a).
Proof.
  induction l as [|b l IH]; simpl; intros Hf a Ha; [assumption|].
  apply IH; [intros; apply Hf; auto | apply Hf; auto].
Qed.

(** One transition either leaves the locals alone or records a target
    that was not in the set. *)
Lemma visitTransition_cases (cur : string) (st : BfsState) (t : Transition) :
  visitTransition cur st t = st /\
    (from t <> cur \/ In (to t) (reachable st))
  \/
  visitTransition cur st t =
    {| queue := queue st ++ [to t];
       reachable := StrSet.insert (to t) (reachable st) |} /\
    from t = cur /\ ~ In (to t) (reachable st).
Proof.
  unfold visitTransition.
  destruct (String.eqb_spec (from t) cur) as [Heq|Hne].
  - destruct (StrSet.mem (to t) (reachable st)) eqn:Hm; simpl.
    + left. split; [reflexivity|]. right. now apply mem_In.
    + right. repeat split; [assumption|]. now apply mem_false.
  - left. split; [reflexivity | now left].
Qed.

Lemma visitTransition_mono (cur : string) (st : BfsState) (t : Transition)
    (x : string) :
  In x (reachable st) -> In x (reachable (visitTransition cur st t)).
Proof.
  intros Hx. destruct (visitTransition_cases cur st t) as [[-> _]|[-> _]];
    [assumption|]. simpl. apply insert_In. now right.
Qed.

Lemma visitTransition_queue_mono (cur : string) (st : BfsState)
    (t : Transition) (x : string) :
  In x (queue st) -> In x (queue (visitTransition cur st t)).
Proof.
  intros Hx. destruct (visitTransition_cases cur st t) as [[-> _]|[-> _]];
    [assumption|]. simpl. apply in_or_app. now left.
Qed.

Lemma fold_visit_mono (cur : string) (l : list Transition) (st : BfsState)
    (x : string) :
  In x (reachable st) ->
  In x (reachable (fold_left (visitTransition cur) l st)).
Proof.
  apply (fold_left_invariant _ (fun s => In x (reachable s))).
  intros a b _. apply visitTransition_mono.
Qed.

Lemma fold_visit_queue_mono (cur : string) (l : list Transition)
    (st : BfsState) (x : string) :
  In x (queue st) -> In x (queue (fold_left (visitTransition cur) l st)).
Proof.
  apply (fold_left_invariant _ (fun s => In x (queue s))).
  intros a b _. apply visitTransition_queue_mono.
Qed.

(** Whatever the scan adds to the set it also pushes on the queue. *)
Lemma fold_visit_new (cur : string) (l : list Transition) (st : BfsState) :
  forall x, In x (reachable (fold_left (visitTransition cur) l st)) ->
    In x (reachable st) \/
    In x (queue (fold_left (visitTransition cur) l st)).
Proof.
  apply (fold_left_invariant _
           (fun s => forall x, In x (reachable s) ->
                       In x (reachable st) \/ In x (queue s))); [|auto].
  intros a t _ IH x Hx.
  destruct (visitTransition_cases cur a t) as [[E _]|[E _]]; rewrite E in *.
  - auto.
  - simpl in *. apply insert_In in Hx. destruct Hx as [->|Hx].
    + right. apply in_or_app. right. now left.
    + destruct (IH x Hx); [now left | right; apply in_or_app; now left].
Qed.

(** After the scan every target of an edge leaving [cur] is in the set. *)
Lemma fold_visit_covers (cur : string) (l : list Transition) :
  forall st t, In t l -> from t = cur ->
    In (to t) (reachable (fold_left (visitTransition cur) l st)).
Proof.
  induction l as [|a l IH]; simpl; intros st t Ht Hf; [contradiction|].
  destruct Ht as [->|Ht]; [|now apply IH].
  apply fold_visit_mono.
  destruct (visitTransition_cases cur st t) as [[-> [H|H]]|[-> _]].
  - contradiction.
  - assumption.
  - simpl. apply insert_In. now left.
Qed.

Lemma fold_visit_queue_in (cur : string) (l : list Transition)
    (st : BfsState) :
  (forall x, In x (queue st) -> In x (reachable st)) ->
  forall x, In x (queue (fold_left (visitTransition cur) l st)) ->
    In x (reachable (fold_left (visitTransition cur) l st)).
Proof.
  apply (fold_left_invariant _
           (fun s => forall x, In x (queue s) -> In x (reachable s))).
  intros a t _ IH x Hx.
  destruct (visitTransition_cases cur a t) as [[E _]|[E _]]; rewrite E in *.
  - auto.
  - simpl in *. apply insert_In. apply in_app_or in Hx.
    destruct Hx as [Hx|[<-|[]]]; [right; auto | now left].
Qed.

Lemma fold_visit_sound (cur : string) (l : list Transition) (st : BfsState) :
  incl l ts -> Reach ts init cur ->
  (forall x, In x (reachable st) -> Reach ts init x) ->
  forall x, In x (reachable (fold_left (visitTransition cur) l st)) ->
    Reach ts init x.
Proof.
  intros Hincl Hcur.
  apply (fold_left_invariant _
           (fun s => forall x, In x (reachable s) -> Reach ts init x)).
  intros a t Ht IH x Hx.
  destruct (visitTransition_cases cur a t) as [[E _]|[E [Hf _]]];
    rewrite E in *.
  - auto.
  - simpl in *. apply insert_In in Hx. destruct Hx as [->|Hx]; [|auto].
    apply Reach_step; [rewrite Hf; assumption | apply Hincl, Ht].
Qed.

Lemma fold_visit_nodup (cur : string) (l : list Transition) (st : BfsState) :
  NoDup (reachable st) ->
  NoDup (reachable (fold_left (visitTransition cur) l st)).
Proof.
  apply (fold_left_invariant _ (fun s => NoDup (reachable s))).
  intros a t _ IH.
  destruct (visitTransition_cases cur a t) as [[-> _]|[-> [_ Hn]]];
    [assumption|]. simpl. now apply insert_NoDup.
Qed.

Lemma bfsStart_inv : bfsInv ts init (bfsStart init).
Proof.
  constructor; simpl.
  - now left.
  - intros x [<-|[]]. now left.
  - intros s [<-|[]]. left. now left.
  - intros x [<-|[]]. constructor.
  - constructor; [simpl; tauto | constructor].
Qed.

Lemma bfsStep_inv (st : BfsState) :
  bfsInv ts init st -> queue st <> [] -> bfsInv ts init (bfsStep ts st).
Proof.
  intros [Hi Hq Hc Hs Hn] Hne. unfold bfsStep, visitOutgoing.
  destruct (queue st) as [|cur rest] eqn:Eq; [congruence|].
  set (st0 := {| queue := rest; reachable := reachable st |}).
  constructor.
  - now apply fold_visit_mono.
  - apply fold_visit_queue_in. simpl. intros x Hx. apply Hq. now right.
  - intros s Hin. destruct (fold_visit_new cur ts st0 s Hin) as [Hold|Hnew];
      [|now left]. simpl in Hold.
    destruct (Hc s Hold) as [[<-|Hrest]|Hclosed].
    + right. intros t Ht Hf. now apply fold_visit_covers.
    + left. now apply fold_visit_queue_mono.
    + right. intros t Ht Hf. apply fold_visit_mono. simpl. now apply Hclosed.
  - apply fold_visit_sound; [apply incl_refl | | exact Hs].
    apply Hs, Hq. now left.
  - now apply fold_visit_nodup.
Qed.

Lemma bfsLoop_inv (fuel : nat) : bfsInv ts init (bfsLoop fuel ts (bfsStart init)).
Proof.
  apply bfsLoop_invariant; [apply bfsStep_inv | apply bfsStart_inv].
Qed.

(** The loop started from [init] with the fuel that [reachableStatesBFS]
    gives it stops because its queue is empty. *)
Lemma bfsLoop_terminates :
  queue (bfsLoop (S (List.length ts)) ts (bfsStart init)) = [].
Proof.
  apply bfsLoop_queue_empty. unfold bfsMeasure.
  pose proof (pending_le ts (reachable (bfsStart init))).
  change (queue (bfsStart init)) with [init]. simpl List.length. lia.
Qed.

(** A set that holds [init] and is closed under the edges holds every
    identifier reachable from [init]. *)
Lemma Reach_closed (r : StrSet.t) :
  In init r ->
  (forall s t, In s r -> In t ts -> from t = s -> In (to t) r) ->
  forall x, Reach ts init x -> In x r.
Proof.
  intros Hi Hc x HR. induction HR as [|t HR IH Ht]; [assumption|].
  now apply (Hc (from t) t).
Qed.

(** The result of the traversal is exactly the set of identifiers
    reachable from [init]. *)
Lemma bfsLoop_spec (x : string) :
  In x (reachable (bfsLoop (S (List.length ts)) ts (bfsStart init)))
  <-> Reach ts init x.
Proof.
  pose proof (bfsLoop_inv (S (List.length ts))) as [Hi Hq Hc Hs Hn].
  pose proof bfsLoop_terminates as Hend.
  split; [apply Hs|].
  apply Reach_closed; [assumption|].
  intros s t Hin Ht Hf. destruct (Hc s Hin) as [Hbad|Hok].
  - rewrite Hend in Hbad. contradiction.
  - now apply Hok.
Qed.

End TraversalInvariant.

(** ** Reachability: the machine-level function *)

Section Reachability.

Variable m : StateMachine.

Lemma findInitialStateId_first (pre post : list State) (s : State) :
  (forall p, In p pre -> isInitial p = false) ->
  isInitial s = true ->
  findInitialStateId (pre ++ s :: post) = s_id s.
Proof.
  induction pre as [|p pre IH]; simpl; intros Hpre Hs.
  - now rewrite Hs.
  - rewrite (Hpre p (or_introl eq_refl)). apply IH; auto.
Qed.

Lemma findInitialStateId_none (sts : list State) :
  (forall s, In s sts -> isInitial s = false) ->
  findInitialStateId sts = "".
Proof.
  induction sts as [|s sts IH]; simpl; intros H; [reflexivity|].
  rewrite (H s (or_introl eq_refl)). apply IH. auto.
Qed.

(** The selected id, when not empty, is the id of a flagged state. *)
Lemma findInitialStateId_In (sts : list State) :
  findInitialStateId sts <> "" ->
  exists s, In s sts /\ isInitial s = true /\
            s_id s = findInitialStateId sts.
Proof.
  induction sts as [|s sts IH]; simpl; intros H; [congruence|].
  destruct (isInitial s) eqn:E.
  - exists s. auto.
  - destruct (IH H) as (s' & Hin & Hi & Hid). exists s'. auto.
Qed.

Lemma reachable_unfold :
  findInitialStateId (states m) <> "" ->
  reachableStatesBFS m =
  reachable (bfsLoop (S (List.length (transitions m))) (transitions m)
               (bfsStart (findInitialStateId (states m)))).
Proof.
  intros H. unfold reachableStatesBFS, bfsFuel.
  destruct (String.eqb_spec (findInitialStateId (states m)) "");
    [contradiction | reflexivity].
Qed.

Lemma reachable_empty_id :
  findInitialStateId (states m) = "" -> reachableStatesBFS m = [].
Proof. intros H. unfold reachableStatesBFS. now rewrite H. Qed.

(** The set is closed under the transitions, for every machine. *)
Lemma reachable_closed (s : string) (t : Transition) :
  In s (reachableStatesBFS m) -> In t (transitions m) -> from t = s ->
  In (to t) (reachableStatesBFS m).
Proof.
  destruct (string_dec (findInitialStateId (states m)) "") as [E|E].
  - rewrite (reachable_empty_id E). contradiction.
  - rewrite (reachable_unfold E). intros Hs Ht Hf.
    apply bfsLoop_spec. rewrite <- Hf in Hs. apply bfsLoop_spec in Hs.
    now apply Reach_step.
Qed.

(** The set holds exactly what can be reached from the selected id,
    when that id is not empty. *)
Lemma reachable_spec (x : string) :
  findInitialStateId (states m) <> "" ->
  (In x (reachableStatesBFS m) <->
   Reach (transitions m) (findInitialStateId (states m)) x).
Proof. intros E. rewrite (reachable_unfold E). apply bfsLoop_spec. Qed.

Lemma reachable_initial :
  findInitialStateId (states m) <> "" ->
  In (findInitialStateId (states m)) (reachableStatesBFS m).
Proof. intros E. apply reachable_spec; [assumption | constructor]. Qed.

Lemma reachable_NoDup : NoDup (reachableStatesBFS m).
Proof.
  destruct (string_dec (findInitialStateId (states m)) "") as [E|E].
  - rewrite (reachable_empty_id E). constructor.
  - rewrite (reachable_unfold E). apply bfsLoop_inv.
Qed.

(** Every member is the selected id or the target of a transition. *)
Lemma reachable_origin (x : string) :
  In x (reachableStatesBFS m) ->
  x = findInitialStateId (states m) \/
  exists t, In t (transitions m) /\ to t = x.
Proof.
  destruct (string_dec (findInitialStateId (states m)) "") as [E|E].
  - rewrite (reachable_empty_id E). contradiction.
  - intros H. apply (reachable_spec x E) in H.
    destruct H as [|t _ Ht]; [now left | right; now exists t].
Qed.

End Reachability.

(** ** Strings: substring search and tokens *)

Section Strings.

Lemma prefix_nil (s : string) : prefix "" s = true.
Proof. destruct s; reflexivity. Qed.

Lemma prefix_cons (a b : ascii) (s1 s2 : string) :
  prefix (String a s1) (String b s2) =
  if ascii_dec a b then prefix s1 s2 else false.
Proof. reflexivity. Qed.

Lemma prefix_append (sub q : string) : prefix sub (sub ++ q) = true.
Proof.
  induction sub as [|a sub IH]; simpl append.
  - apply prefix_nil.
  - rewrite prefix_cons. destruct (ascii_dec a a); [assumption | congruence].
Qed.

Lemma prefix_split (sub : string) :
  forall s, prefix sub s = true -> exists q, s = (sub ++ q)%string.
Proof.
  induction sub as [|a sub IH]; intros s H.
  - exists s. reflexivity.
  - destruct s as [|b s]; [discriminate|].
    rewrite prefix_cons in H. destruct (ascii_dec a b) as [->|]; [|discriminate].
    destruct (IH s H) as [q ->]. exists q. reflexivity.
Qed.

Lemma index_cons (sub : string) (b : ascii) (s : string) :
  index 0 sub (String b s) =
  if prefix sub (String b s) then Some 0
  else match index 0 sub s with Some n => Some (S n) | None => None end.
Proof. reflexivity. Qed.

Lemma contains_prefix (sub s : string) :
  prefix sub s = true -> contains sub s = true.
Proof.
  unfold contains. destruct s as [|b s]; intros H.
  - destruct sub; [reflexivity | discriminate].
  - rewrite index_cons, H. reflexivity.
Qed.

Lemma contains_cons (sub : string) (b : ascii) (s : string) :
  contains sub s = true -> contains sub (String b s) = true.
Proof.
  unfold contains. rewrite index_cons.
  destruct (prefix sub (String b s)); [reflexivity|].
  destruct (index 0 sub s); [reflexivity | discriminate].
Qed.

(** [find] succeeds exactly on the strings in which [sub] occurs. *)
Lemma contains_spec (sub s : string) :
  contains sub s = true <-> Substring sub s.
Proof.
  split.
  - induction s as [|b s IH]; unfold contains.
    + destruct sub; [|discriminate]. intros _. exists "", "". reflexivity.
    + rewrite index_cons. destruct (prefix sub (String b s)) eqn:P.
      * intros _. destruct (prefix_split _ _ P) as [q ->].
        exists "", q. reflexivity.
      * intros H. unfold contains in IH.
        destruct (index 0 sub s); [|discriminate].
        destruct (IH eq_refl) as (p & q & ->).
        exists (String b p), q. reflexivity.
  - intros (p & q & ->). induction p as [|a p IH]; simpl append.
    + apply contains_prefix, prefix_append.
    + now apply contains_cons.
Qed.

Lemma contains_false (sub s : string) :
  contains sub s = false <-> ~ Substring sub s.
Proof.
  rewrite <- contains_spec. destruct (contains sub s); split; congruence.
Qed.

Lemma append_empty_r (s : string) : (s ++ "")%string = s.
Proof. induction s; simpl; congruence. Qed.

Lemma append_assoc (a b c : string) :
  ((a ++ b) ++ c)%string = (a ++ b ++ c)%string.
Proof. induction a; simpl; congruence. Qed.

(** One word of the stream is one token of the split. *)
Lemma word_splitWs (s : string) :
  forall acc w r, IStream.word s = (w, r) ->
    splitWs s acc =
    match (acc ++ w)%string with
    | EmptyString => splitWs r EmptyString
    | tok => tok :: splitWs r EmptyString
    end.
Proof.
  induction s as [|c s IH]; intros acc w r H; simpl in H.
  - injection H as <- <-. rewrite append_empty_r. simpl.
    destruct acc; reflexivity.
  - simpl splitWs. destruct (IStream.isspace c) eqn:Hc.
    + injection H as <- <-. rewrite append_empty_r. simpl. rewrite Hc.
      destruct acc; reflexivity.
    + destruct (IStream.word s) as [w' r'] eqn:Hw. injection H as <- <-.
      rewrite (IH _ _ _ eq_refl), append_assoc. reflexivity.
Qed.

Lemma skipws_tokens (s : string) : tokens (IStream.skipws s) = tokens s.
Proof.
  unfold tokens. induction s as [|c s IH]; simpl; [reflexivity|].
  destruct (IStream.isspace c) eqn:Hc; [assumption|].
  simpl. rewrite Hc. reflexivity.
Qed.

Lemma word_skipws_empty (s r : string) :
  IStream.word (IStream.skipws s) = ("", r) -> r = "".
Proof.
  induction s as [|c s IH]; simpl.
  - now intros [= <-].
  - destruct (IStream.isspace c) eqn:Hc; [assumption|].
    simpl. rewrite Hc. destruct (IStream.word s). discriminate.
Qed.

(** An extraction either finds the buffer exhausted or removes the
    first token. *)
Lemma extract_spec (s w r : string) :
  IStream.extract s = (w, r) ->
  (w = "" /\ r = "" /\ tokens s = []) \/
  (w <> "" /\ tokens s = w :: tokens r).
Proof.
  unfold IStream.extract. intros H.
  pose proof (word_splitWs _ "" _ _ H) as T. simpl in T.
  fold (tokens (IStream.skipws s)) in T. rewrite skipws_tokens in T.
  destruct w as [|c w].
  - left. apply word_skipws_empty in H. subst r. auto.
  - right. split; [discriminate | exact T].
Qed.

(** [value] is the third token of the expression. *)
Lemma parseValue_spec (e : string) : parseValue e = thirdToken e.
Proof.
  unfold parseValue, thirdToken.
  destruct (IStream.extract e) as [w1 r1] eqn:E1.
  destruct (IStream.extract r1) as [w2 r2] eqn:E2.
  destruct (IStream.extract r2) as [w3 r3] eqn:E3.
  destruct (extract_spec _ _ _ E1) as [(-> & -> & T1)|(N1 & T1)]; rewrite T1.
  - cbv in E2. injection E2 as <- <-. cbv in E3. now injection E3 as <- _.
  - destruct (extract_spec _ _ _ E2) as [(-> & -> & T2)|(N2 & T2)]; rewrite T2.
    + cbv in E3. now injection E3 as <- _.
    + destruct (extract_spec _ _ _ E3) as [(-> & -> & T3)|(N3 & T3)];
        rewrite T3; reflexivity.
Qed.

End Strings.

(** ** Structural analysis *)

Lemma isDeadlock_loop_noOutgoing (ts : list Transition) (x : string) :
  isDeadlock_loop ts x = noOutgoing ts x.
Proof.
  induction ts as [|t ts IH]; simpl; [reflexivity|].
  destruct (from t =? x)%string; simpl; [reflexivity | assumption].
Qed.

Lemma isDeadlock_spec (m : StateMachine) (x : string) :
  isDeadlock m x = true <->
  forall t, In t (transitions m) -> from t <> x.
Proof.
  unfold isDeadlock. rewrite isDeadlock_loop_noOutgoing.
  unfold noOutgoing. rewrite forallb_forall. split; intros H t Ht.
  - apply String.eqb_neq, negb_true_iff, H, Ht.
  - apply negb_true_iff, String.eqb_neq, H, Ht.
Qed.

Lemma isLivelock_spec (m : StateMachine) (x : string) :
  isLivelock m x = true <->
  forall t, In t (transitions m) -> from t = x -> to t = x.
Proof.
  unfold isLivelock. induction (transitions m) as [|t ts IH]; simpl.
  - split; [intros _ t [] | reflexivity].
  - destruct (String.eqb_spec (from t) x) as [Hf|Hf]; simpl.
    + destruct (String.eqb_spec (to t) x) as [Ht|Ht]; simpl.
      * rewrite IH. split; [intros H t' [<-|H'] | ]; auto.
      * split; [discriminate|]. intros H. exfalso. apply Ht, H; auto.
    + rewrite IH. split; [intros H t' [<-|H'] E | ]; auto. contradiction.
Qed.

Lemma noOutgoing_map (ts : list Transition) (x : string) :
  noOutgoing ts x = forallb (fun f => negb (f =? x)%string) (map from ts).
Proof.
  unfold noOutgoing. induction ts as [|t ts IH]; simpl; congruence.
Qed.

Lemma findDeadlocks_fold (m : StateMachine) (sts : list State) :
  forall acc,
    fold_left
      (fun deadlocks state =>
         if isDeadlock m (s_id state) && negb (isFinal state)
         then deadlocks ++ [s_id state] else deadlocks) sts acc =
    acc ++ map s_id
             (filter (fun s => noOutgoing (transitions m) (s_id s)
                               && negb (isFinal s)) sts).
Proof.
  induction sts as [|s sts IH]; intros acc; simpl.
  - now rewrite app_nil_r.
  - rewrite IH. unfold isDeadlock. rewrite isDeadlock_loop_noOutgoing.
    destruct (noOutgoing (transitions m) (s_id s) && negb (isFinal s)); simpl;
      [rewrite <- app_assoc|]; reflexivity.
Qed.

(** C8: for every machine and every state identifier, [isDeadlock] implies
    [isLivelock]: a state without outgoing transitions satisfies the
    livelock predicate vacuously. *)
Theorem isDeadlock_implies_isLivelock (m : StateMachine) (s : string) :
  isDeadlock m s = true -> isLivelock m s = true.
Proof.
  rewrite isDeadlock_spec, isLivelock_spec.
  intros H t Ht Hf. exfalso. exact (H t Ht Hf).
Qed.

Lemma isDeadlock_implies_isLivelock_witness :
  isDeadlock scenario1 "C" = true /\ isLivelock scenario1 "C" = true.
Proof.
  split; [reflexivity|].
  apply (isDeadlock_implies_isLivelock scenario1 "C"). reflexivity.
Defined.

(** C7: [findDeadlocks] returns, in the order of the state list, exactly
    the identifiers of the states that have no outgoing transition and are
    not flagged final.  An identifier is a member iff some listed state
    carries it, is not final and no transition leaves it; nothing else
    (initial flags, transition targets, hence reachability) enters. *)
Theorem findDeadlocks_exact (m : StateMachine) :
  findDeadlocks m =
    map s_id (filter (fun s => noOutgoing (transitions m) (s_id s)
                               && negb (isFinal s)) (states m))
  /\ (forall x, In x (findDeadlocks m) <->
        exists s, In s (states m) /\ s_id s = x /\ isFinal s = false /\
                  forall t, In t (transitions m) -> from t <> x)
  /\ (forall m', map (fun s => (s_id s, isFinal s)) (states m') =
                 map (fun s => (s_id s, isFinal s)) (states m) ->
                 map from (transitions m') = map from (transitions m) ->
                 findDeadlocks m' = findDeadlocks m).
Proof.
  assert (E : forall m0, findDeadlocks m0 =
    map s_id (filter (fun s => noOutgoing (transitions m0) (s_id s)
                               && negb (isFinal s)) (states m0))).
  { intros m0. unfold findDeadlocks. now rewrite findDeadlocks_fold. }
  split; [apply E | split].
  - intros x. rewrite E, in_map_iff. split.
    + intros (s & Hid & Hs). apply filter_In in Hs. destruct Hs as [Hin Hc].
      apply andb_true_iff in Hc. destruct Hc as [Hno Hfin].
      exists s. repeat split; auto.
      * now apply negb_true_iff.
      * apply (isDeadlock_spec m). unfold isDeadlock.
        rewrite isDeadlock_loop_noOutgoing. congruence.
    + intros (s & Hin & Hid & Hfin & Hno). exists s. split; [assumption|].
      apply filter_In. split; [assumption|]. apply andb_true_iff. split.
      * rewrite <- isDeadlock_loop_noOutgoing. apply (isDeadlock_spec m).
        now rewrite Hid.
      * now rewrite Hfin.
  - intros m' Hs Ht. rewrite !E.
    assert (Hno : forall x, noOutgoing (transitions m') x
                            = noOutgoing (transitions m) x).
    { intros x. now rewrite !noOutgoing_map, Ht. }
    revert Hs. generalize (states m) as l. generalize (states m') as l'.
    induction l' as [|a l' IH]; intros [|b l] H; simpl in *; try discriminate;
      [reflexivity|].
    injection H as Hid Hfin Hl. rewrite Hno, Hid, Hfin.
    destruct (noOutgoing (transitions m) (s_id b) && negb (isFinal b));
      simpl; rewrite ?Hid, (IH l Hl); reflexivity.
Qed.

(** ** Final-state reachability *)

Lemma canReachFinalState_loop_first (r : StrSet.t) (pre post : list State)
    (s : State) :
  (forall p, In p pre -> reachableFinal r p = false) ->
  reachableFinal r s = true ->
  canReachFinalState_loop r (pre ++ s :: post) =
    {| isReachable := true; path := [];
       r_message := "Final state '" ++ s_name s ++ "' is reachable" |}.
Proof.
  unfold reachableFinal. induction pre as [|p pre IH]; simpl; intros Hpre Hs.
  - now rewrite Hs.
  - rewrite (Hpre p (or_introl eq_refl)). apply IH; auto.
Qed.

Lemma canReachFinalState_loop_true (r : StrSet.t) (sts : list State) :
  isReachable (canReachFinalState_loop r sts) = true <->
  exists s, In s sts /\ reachableFinal r s = true.
Proof.
  unfold reachableFinal. induction sts as [|s sts IH]; simpl.
  - split; [discriminate | intros (s & [] & _)].
  - destruct (isFinal s && StrSet.mem (s_id s) r) eqn:E; simpl.
    + split; [|reflexivity]. intros _. exists s. auto.
    + rewrite IH. split.
      * intros (s' & Hin & Hs'). exists s'. auto.
      * intros (s' & [<-|Hin] & Hs'); [congruence | exists s'; auto].
Qed.

(** C9: [canReachFinalState] answers true iff some state flagged final has
    its identifier in the computed reachable set, and then the message
    names the first such state in the order of the state list. *)
Theorem canReachFinalState_spec (m : StateMachine) :
  (isReachable (canReachFinalState m) = true <->
   exists s, In s (states m) /\ isFinal s = true /\
             In (s_id s) (reachableStatesBFS m))
  /\
  (forall pre s post,
     states m = pre ++ s :: post ->
     (forall p, In p pre ->
        ~ (isFinal p = true /\ In (s_id p) (reachableStatesBFS m))) ->
     isFinal s = true -> In (s_id s) (reachableStatesBFS m) ->
     canReachFinalState m =
       {| isReachable := true; path := [];
          r_message := "Final state '" ++ s_name s ++ "' is reachable" |}).
Proof.
  unfold canReachFinalState. split.
  - rewrite canReachFinalState_loop_true. unfold reachableFinal.
    split; intros (s & Hin & H); exists s.
    + apply andb_true_iff in H. destruct H as [Hf Hm].
      apply mem_In in Hm. auto.
    + destruct H as [Hf Hm]. apply mem_In in Hm. now rewrite Hf, Hm.
  - intros pre s post E Hpre Hf Hm. rewrite E.
    apply canReachFinalState_loop_first; unfold reachableFinal.
    + intros p Hp. destruct (isFinal p) eqn:Fp; [|reflexivity]. simpl.
      apply mem_false. intro Hin. apply (Hpre p Hp). auto.
    + apply mem_In in Hm. now rewrite Hf, Hm.
Qed.

(** ** Report generation *)

Section Report.

Variable m : StateMachine.

Lemma initialCount_fold (sts : list State) :
  forall n,
    fold_left (fun count state => if isInitial state then S count else count)
      sts n = n + List.length (filter isInitial sts).
Proof.
  induction sts as [|s sts IH]; intros n; simpl; [lia|].
  rewrite IH. destruct (isInitial s); simpl; lia.
Qed.

Lemma initialCount_filter (sts : list State) :
  initialCount sts = List.length (filter isInitial sts).
Proof. unfold initialCount. now rewrite initialCount_fold. Qed.

Lemma filter_nil_iff {A : Type} (f : A -> bool) (l : list A) :
  filter f l = [] <-> forall a, In a l -> f a = false.
Proof.
  induction l as [|a l IH]; simpl.
  - split; [intros _ a [] | reflexivity].
  - destruct (f a) eqn:E.
    + split; [discriminate|]. intros H.
      specialize (H a (or_introl eq_refl)). congruence.
    + rewrite IH. split; [intros H b [<-|Hb] | ]; auto.
Qed.

Lemma filter_one_iff {A : Type} (f : A -> bool) (l : list A) :
  List.length (filter f l) = 1 <->
  exists pre x post, l = pre ++ x :: post /\ f x = true /\
                     forall y, In y (pre ++ post) -> f y = false.
Proof.
  split.
  - induction l as [|a l IH]; simpl; [discriminate|].
    destruct (f a) eqn:E; simpl.
    + intros H. exists [], a, l. repeat split; [assumption|].
      simpl. apply filter_nil_iff. apply length_zero_iff_nil. lia.
    + intros H. destruct (IH H) as (pre & x & post & -> & Hx & Hr).
      exists (a :: pre), x, post. repeat split; [assumption|].
      intros y [<-|Hy]; auto.
  - intros (pre & x & post & -> & Hx & Hr).
    rewrite filter_app. simpl. rewrite Hx, length_app. simpl.
    assert (filter f pre = []) as ->
      by (apply filter_nil_iff; intros; apply Hr, in_or_app; auto).
    assert (filter f post = []) as ->
      by (apply filter_nil_iff; intros; apply Hr, in_or_app; auto).
    reflexivity.
Qed.

Lemma initialCount_one :
  initialCount (states m) = 1 <-> exactlyOneInitial (states m).
Proof. rewrite initialCount_filter. apply filter_one_iff. Qed.

Lemma endpointsExist_fold (sts : list State) (t : Transition) :
  forall a b,
    fold_left
      (fun (flags : bool * bool) state =>
         let (fromExists, toExists) := flags in
         ((if (s_id state =? from t)%string then true else fromExists),
          (if (s_id state =? to t)%string then true else toExists)))
      sts (a, b) =
    (a || existsb (fun s => (s_id s =? from t)%string) sts,
     b || existsb (fun s => (s_id s =? to t)%string) sts).
Proof.
  induction sts as [|s sts IH]; intros a b; simpl.
  - now rewrite !orb_false_r.
  - rewrite IH. destruct (s_id s =? from t)%string, (s_id s =? to t)%string;
      simpl; rewrite ?orb_true_r; reflexivity.
Qed.

Lemma existsb_isStateId (sts : list State) (x : string) :
  existsb (fun s => (s_id s =? x)%string) sts = true <-> isStateId sts x.
Proof.
  unfold isStateId. rewrite existsb_exists.
  split; intros (s & Hin & H); exists s; split; auto;
    now apply String.eqb_eq.
Qed.

Lemma endpointsExist_spec (t : Transition) :
  endpointsExist (states m) t =
  (existsb (fun s => (s_id s =? from t)%string) (states m),
   existsb (fun s => (s_id s =? to t)%string) (states m)).
Proof. unfold endpointsExist. now rewrite endpointsExist_fold. Qed.

End Report.

Section ReportSteps.

Variable m : StateMachine.

Lemma extends_refl (r : VerificationReport) : extends r r.
Proof. constructor; auto. Qed.

Lemma extends_trans (r1 r2 r3 : VerificationReport) :
  extends r1 r2 -> extends r2 r3 -> extends r1 r3.
Proof.
  intros [V1 E1 R1 T1 W1] [V2 E2 R2 T2 W2].
  constructor; try congruence. auto.
Qed.

Lemma extends_addWarning (msg : string) (r : VerificationReport) :
  extends r (addWarning msg r).
Proof.
  constructor; try reflexivity. simpl. intros w Hw.
  apply in_or_app. now left.
Qed.

Lemma extends_fold {B : Type} (f : VerificationReport -> B -> VerificationReport)
    (l : list B) :
  (forall r b, extends r (f r b)) ->
  forall r, extends r (fold_left f l r).
Proof.
  intros Hf r.
  apply (fold_left_invariant f (fun r' => extends r r'));
    [|apply extends_refl].
  intros a b _ Ha. eapply extends_trans; [exact Ha | apply Hf].
Qed.

Lemma extends_deadlockDetection (r : VerificationReport) :
  extends r (deadlockDetection m r).
Proof.
  unfold deadlockDetection.
  assert (H0 : extends r (setDeadlocks (findDeadlocks m) r))
    by (constructor; auto).
  destruct (deadlocks (setDeadlocks (findDeadlocks m) r)); [assumption|].
  eapply extends_trans; [exact H0|]. apply extends_fold.
  intros. apply extends_addWarning.
Qed.

Lemma extends_finalStateCheck (r : VerificationReport) :
  extends r (finalStateCheck m r).
Proof.
  unfold finalStateCheck.
  destruct (negb (isReachable (canReachFinalState m)));
    [apply extends_addWarning | apply extends_refl].
Qed.

Lemma extends_makeSummary (r : VerificationReport) :
  extends r (makeSummary m r).
Proof. constructor; auto. Qed.

Lemma extends_warnUnreachable (reach : list string)
    (r : VerificationReport) (state : State) :
  extends r (warnUnreachable reach r state).
Proof.
  unfold warnUnreachable. destruct (negb (vec_contains reach (s_id state)));
    [apply extends_addWarning | apply extends_refl].
Qed.

Lemma warnUnreachable_emits (reach : list string) (sts : list State) :
  forall r s, In s sts -> vec_contains reach (s_id s) = false ->
    In ("WARNING: Unreachable state: " ++ s_name s)%string
       (warnings (fold_left (warnUnreachable reach) sts r)).
Proof.
  induction sts as [|a sts IH]; simpl; intros r s Hin Hs; [contradiction|].
  destruct Hin as [->|Hin]; [|now apply IH].
  apply (ext_warn _ _ (extends_fold _ sts
                         (extends_warnUnreachable reach) _)).
  unfold warnUnreachable. rewrite Hs. simpl.
  apply in_or_app. right. now left.
Qed.

Lemma reachabilityAnalysis_counts (r : VerificationReport) :
  reachableStates (reachabilityAnalysis m r)
    = int_of_size (StrSet.size (reachableStatesBFS m)) /\
  totalStates (reachabilityAnalysis m r)
    = int_of_size (List.length (states m)) /\
  isValid (reachabilityAnalysis m r) = isValid r /\
  errors (reachabilityAnalysis m r) = errors r.
Proof.
  unfold reachabilityAnalysis.
  set (r1 := setCounts _ _ r).
  assert (H1 : reachableStates r1
               = int_of_size (StrSet.size (reachableStatesBFS m)) /\
               totalStates r1 = int_of_size (List.length (states m)) /\
               isValid r1 = isValid r /\ errors r1 = errors r)
    by (repeat split).
  destruct (reachableStates r1 <? totalStates r1)%Z; [|exact H1].
  destruct (extends_fold _ (states m)
              (extends_warnUnreachable (getReachableStates m)) r1)
    as [V E R T _].
  destruct H1 as (A & B & C & D). repeat split; congruence.
Qed.

Lemma generateReport_laterSteps :
  generateReport m =
  laterSteps m (checkTransitions m (checkInitialState m initReport)).
Proof. reflexivity. Qed.

Lemma laterSteps_extends (r : VerificationReport) :
  extends (reachabilityAnalysis m r) (laterSteps m r).
Proof.
  unfold laterSteps.
  eapply extends_trans; [apply extends_deadlockDetection|].
  eapply extends_trans; [apply extends_finalStateCheck|].
  apply extends_makeSummary.
Qed.

Lemma laterSteps_isValid (r : VerificationReport) :
  isValid (laterSteps m r) = isValid r.
Proof.
  rewrite (ext_valid _ _ (laterSteps_extends r)).
  apply reachabilityAnalysis_counts.
Qed.

Lemma generateReport_counts :
  reachableStates (generateReport m)
    = int_of_size (StrSet.size (reachableStatesBFS m)) /\
  totalStates (generateReport m) = int_of_size (List.length (states m)).
Proof.
  rewrite generateReport_laterSteps.
  set (r := checkTransitions m (checkInitialState m initReport)).
  destruct (laterSteps_extends r) as [_ _ R T _]. rewrite R, T.
  split; apply reachabilityAnalysis_counts.
Qed.

Lemma isValid_checkInitialState (r : VerificationReport) :
  isValid (checkInitialState m r)
  = isValid r && (initialCount (states m) =? 1)%nat.
Proof.
  unfold checkInitialState.
  destruct (initialCount (states m)) as [|[|n]]; simpl;
    rewrite ?andb_false_r, ?andb_true_r; reflexivity.
Qed.

Lemma isValid_checkTransition (r : VerificationReport) (t : Transition) :
  isValid (checkTransition m r t) = isValid r && bothExist m t.
Proof.
  unfold checkTransition, bothExist. rewrite endpointsExist_spec.
  destruct (existsb _ _), (existsb _ _); simpl;
    rewrite ?andb_false_r, ?andb_true_r; reflexivity.
Qed.

Lemma isValid_checkTransitions (ts : list Transition) :
  forall r, isValid (fold_left (checkTransition m) ts r)
            = isValid r && forallb (bothExist m) ts.
Proof.
  induction ts as [|t ts IH]; intros r; simpl.
  - now rewrite andb_true_r.
  - rewrite IH, isValid_checkTransition, andb_assoc. reflexivity.
Qed.

Lemma forallb_bothExist :
  forallb (bothExist m) (transitions m) = true <-> endpointsValid m.
Proof.
  unfold endpointsValid. rewrite forallb_forall.
  split; intros H t Ht; specialize (H t Ht).
  - apply andb_true_iff in H. destruct H as [A B].
    split; now apply existsb_isStateId.
  - destruct H as [A B]. apply andb_true_iff.
    split; now apply existsb_isStateId.
Qed.

End ReportSteps.

(** C1: [generateReport] returns [isValid = true] iff exactly one state is
    flagged initial and both ends of every transition are ids of states
    of the machine; reachability, deadlocks and final states do not enter. *)
Theorem generateReport_isValid_iff (m : StateMachine) :
  isValid (generateReport m) = true <->
  exactlyOneInitial (states m) /\ endpointsValid m.
Proof.
  rewrite generateReport_laterSteps, laterSteps_isValid.
  unfold checkTransitions.
  rewrite isValid_checkTransitions, isValid_checkInitialState. simpl.
  rewrite andb_true_iff, Nat.eqb_eq, initialCount_one, forallb_bothExist.
  reflexivity.
Qed.

Lemma vec_contains_false (v : list string) (x : string) :
  vec_contains v x = false <-> ~ In x v.
Proof.
  unfold vec_contains. split.
  - intros H Hin. assert (existsb (String.eqb x) v = true); [|congruence].
    apply existsb_exists. exists x. split; [assumption | apply String.eqb_refl].
  - intros H. destruct (existsb (String.eqb x) v) eqn:E; [|reflexivity].
    apply existsb_exists in E. destruct E as (y & Hy & Heq).
    apply String.eqb_eq in Heq. subst y. contradiction.
Qed.

(** C3, as stated, fails: B is a listed state outside the reachable set,
    yet the report has no warning that names it unreachable, because the
    dangling target X brings the reachable count up to the state count. *)
Lemma unreachable_warning_counterexample :
  In (st "B" "B" false false) (states danglingMachine) /\
  StrSet.mem "B" (reachableStatesBFS danglingMachine) = false /\
  warnings (generateReport danglingMachine) =
    ["WARNING: Potential deadlock state: B";
     "WARNING: No final state is reachable"] /\
  ~ In "WARNING: Unreachable state: B"
       (warnings (generateReport danglingMachine)).
Proof.
  split; [right; left; reflexivity|].
  split; [reflexivity|]. split; [reflexivity|].
  cbv. intros [H|[H|[]]]; discriminate.
Qed.

(** The warning loop runs when the count of the set, as an [int], is below
    the count of the states, and then warns about every state outside the
    set. *)
Lemma unreachable_warning_emitted (m : StateMachine) (s : State) :
  (int_of_size (StrSet.size (reachableStatesBFS m))
   < int_of_size (List.length (states m)))%Z ->
  In s (states m) ->
  ~ In (s_id s) (reachableStatesBFS m) ->
  In ("WARNING: Unreachable state: " ++ s_name s)%string
     (warnings (generateReport m)).
Proof.
  intros Hlt Hin Hout. rewrite generateReport_laterSteps.
  apply (ext_warn _ _ (laterSteps_extends m _)).
  unfold reachabilityAnalysis. simpl reachableStates. simpl totalStates.
  apply Z.ltb_lt in Hlt. unfold StrSet.size in Hlt.
  unfold getReachableStates, StrSet.elements. rewrite Hlt.
  apply (warnUnreachable_emits (reachableStatesBFS m)); [assumption|].
  now apply vec_contains_false.
Qed.

(** C3, amended: when the reported reachable count is smaller than the
    reported state count, every listed state whose id is absent from the
    reachable set gets the warning that names it unreachable; and the
    verdict is the one reached after the two structural checks, so no
    warning changes it. *)
Theorem unreachable_warning_when_fewer (m : StateMachine) (s : State) :
  (reachableStates (generateReport m) < totalStates (generateReport m))%Z ->
  In s (states m) ->
  ~ In (s_id s) (reachableStatesBFS m) ->
  In ("WARNING: Unreachable state: " ++ s_name s)%string
     (warnings (generateReport m))
  /\ isValid (generateReport m)
     = isValid (checkTransitions m (checkInitialState m initReport)).
Proof.
  intros Hlt Hin Hout. split.
  - destruct (generateReport_counts m) as [R T]. rewrite R, T in Hlt.
    now apply unreachable_warning_emitted.
  - rewrite generateReport_laterSteps. apply laterSteps_isValid.
Qed.

Lemma unreachable_warning_when_fewer_witness :
  In "WARNING: Unreachable state: B"
     (warnings (generateReport
        (machine [st "A" "A" true false; st "B" "B" false false] [])))
  /\ isValid (generateReport
        (machine [st "A" "A" true false; st "B" "B" false false] []))
     = true.
Proof.
  apply (unreachable_warning_when_fewer
           (machine [st "A" "A" true false; st "B" "B" false false] [])
           (st "B" "B" false false)).
  - reflexivity.
  - right. left. reflexivity.
  - cbv. intros [H|[]]. discriminate.
Defined.

(** C10: there are machines with a transition to an identifier that names
    no state, whose reachable set contains that identifier and whose
    [reachableStates] counts it: the count exceeds the number of listed
    states that are reachable, and it equals (first machine) or exceeds
    (second machine) [totalStates] while state B is unreachable. *)
Theorem dangling_target_counted :
  (exists m t, countsDangling m t /\
     reachableStates (generateReport m) = totalStates (generateReport m))
  /\
  (exists m t, countsDangling m t /\
     (totalStates (generateReport m) < reachableStates (generateReport m))%Z).
Proof.
  assert (NX : forall x l, (forall s, In s l -> s_id s <> x) ->
                           ~ isStateId l x)
    by (intros x l H (s & Hin & Hid); exact (H s Hin Hid)).
  split.
  - exists danglingMachine, (tr "t1" "A" "X").
    split; [|reflexivity]. unfold countsDangling.
    split; [left; reflexivity|]. split.
    { apply NX. intros s [<-|[<-|[]]]; discriminate. }
    split; [right; left; reflexivity|]. split; [reflexivity|].
    split; [reflexivity|].
    exists (st "B" "B" false false). split; [right; left; reflexivity|].
    cbv. intros [H|[H|[]]]; discriminate.
  - exists danglingMachine2, (tr "t1" "A" "X").
    split; [|reflexivity]. unfold countsDangling.
    split; [left; reflexivity|]. split.
    { apply NX. intros s [<-|[<-|[]]]; discriminate. }
    split; [right; left; reflexivity|]. split; [reflexivity|].
    split; [reflexivity|].
    exists (st "B" "B" false false). split; [right; left; reflexivity|].
    cbv. intros [H|[H|[H|[]]]]; discriminate.
Qed.

(** ** Invariant evaluation *)

Lemma findState_isStateId (sts : list State) (x : string) :
  (exists s, findState sts x = Some s) <-> isStateId sts x.
Proof.
  unfold isStateId. induction sts as [|a sts IH]; simpl.
  - split; [intros (s & H); discriminate | intros (s & [] & _)].
  - destruct (String.eqb_spec (s_id a) x) as [E|E].
    + split; [intros _; exists a; auto | intros _; exists a; reflexivity].
    + rewrite IH. split.
      * intros (s & Hin & Hid). exists s. auto.
      * intros (s & [<-|Hin] & Hid); [contradiction | exists s; auto].
Qed.

(** The lookup returns the first listed state with the given id, and
    nothing else. *)
Lemma findState_first (sts : list State) (x : string) (s : State) :
  findState sts x = Some s <-> firstWithId sts x s.
Proof.
  unfold firstWithId. induction sts as [|a sts IH]; simpl.
  - split; [discriminate|]. intros (pre & post & E & _).
    destruct pre; discriminate E.
  - destruct (String.eqb_spec (s_id a) x) as [Ea|Ea].
    + split.
      * intros [= <-]. exists [], sts. repeat split; [assumption|].
        intros p [].
      * intros (pre & post & E & Hid & Hpre). destruct pre as [|p pre].
        -- simpl in E. injection E as -> _. reflexivity.
        -- simpl in E. injection E as <- _. exfalso.
           apply (Hpre a); [now left | assumption].
    + rewrite IH. split.
      * intros (pre & post & -> & Hid & Hpre).
        exists (a :: pre), post. repeat split; [assumption|].
        intros p [<-|Hp]; [assumption | now apply Hpre].
      * intros (pre & post & E & Hid & Hpre). destruct pre as [|p pre].
        -- simpl in E. injection E as <- _. contradiction.
        -- simpl in E. injection E as _ ->. exists pre, post.
           repeat split; [assumption|]. intros q Hq. apply Hpre. now right.
Qed.

(** The lookup fails exactly for the identifiers that no listed state
    carries. *)
Lemma findState_None (sts : list State) (x : string) :
  findState sts x = None <-> ~ isStateId sts x.
Proof.
  rewrite <- findState_isStateId. destruct (findState sts x) as [s|].
  - split; [discriminate|]. intros H. exfalso. apply H. now exists s.
  - split; [|reflexivity]. intros _ (s & H). discriminate.
Qed.

(** When the ids of the list are pairwise distinct, every listed state is
    the one its id stands for. *)
Lemma firstWithId_unique_ids (sts : list State) (s : State) :
  NoDup (map s_id sts) -> In s sts -> firstWithId sts (s_id s) s.
Proof.
  intros Hnd Hin. apply in_split in Hin. destruct Hin as (pre & post & ->).
  exists pre, post. repeat split. intros p Hp E.
  rewrite map_app in Hnd. simpl in Hnd.
  apply NoDup_remove_2 in Hnd. apply Hnd.
  apply in_or_app. left. rewrite <- E. now apply in_map.
Qed.

Lemma checkInvariant_loop_holds (m : StateMachine) (e : string)
    (ids : list string) :
  holds (checkInvariant_loop m e ids) = forallb (evaluateExpression e m) ids.
Proof.
  induction ids as [|x ids IH]; simpl; [reflexivity|].
  destruct (evaluateExpression e m x); simpl; [assumption | reflexivity].
Qed.

(** Without an operator the predicate only asks that the id resolves. *)
Lemma evaluateExpression_no_operator (m : StateMachine) (e x : string) :
  contains "!=" e = false -> contains "==" e = false ->
  (evaluateExpression e m x = true <-> isStateId (states m) x).
Proof.
  intros Hne Heq. unfold evaluateExpression. rewrite Hne, Heq.
  rewrite <- findState_isStateId.
  destruct (findState (states m) x) as [s|].
  - split; [intros _; now exists s | reflexivity].
  - split; [discriminate | intros (s & H); discriminate].
Qed.

(** C4, as stated, fails: the expression has neither operator, yet the
    invariant is reported violated, at the dangling identifier X. *)
Lemma checkInvariant_no_operator_counterexample :
  contains "!=" "always" = false /\
  contains "==" "always" = false /\
  checkInvariant danglingInvariantMachine "always" =
    {| holds := false; failingState := "X"; failingPath := ["X"];
       i_message := "Invariant violated at state: X" |}.
Proof. repeat split. Qed.

(** C4, amended: for an expression that contains neither ["!="] nor
    ["=="], [checkInvariant] returns [holds = true] exactly when every
    identifier of the reachable set is the id of a listed state; in
    particular it does so for every machine whose reachable transition
    targets all exist. *)
Theorem checkInvariant_no_operator (m : StateMachine) (e : string) :
  ~ Substring "!=" e -> ~ Substring "==" e ->
  (holds (checkInvariant m e) = true <->
   forall x, In x (reachableStatesBFS m) -> isStateId (states m) x).
Proof.
  intros Hne Heq. apply contains_false in Hne, Heq.
  unfold checkInvariant, getReachableStates, StrSet.elements.
  rewrite checkInvariant_loop_holds, forallb_forall.
  split; intros H x Hx.
  - apply (evaluateExpression_no_operator m e x Hne Heq), H, Hx.
  - apply (evaluateExpression_no_operator m e x Hne Heq), H, Hx.
Qed.

Lemma checkInvariant_no_operator_witness :
  holds (checkInvariant scenario1 "always") = true <->
  forall x, In x (reachableStatesBFS scenario1) ->
            isStateId (states scenario1) x.
Proof.
  apply (checkInvariant_no_operator scenario1 "always");
    intro H; apply contains_spec in H; discriminate H.
Defined.

(** C6: when the expression contains ["!="], the predicate evaluated for a
    state (the first listed state that carries the identifier, hence every
    listed state when ids are distinct) holds iff the state's display
    name differs from the third white-space separated token of the
    expression (the empty string when there are fewer than three).
    Nothing is assumed about ["=="], and the first two tokens do not
    occur in the right-hand side. *)
Theorem evaluateExpression_inequality (m : StateMachine) (stateId : string)
    (s : State) (e : string) :
  Substring "!=" e ->
  firstWithId (states m) stateId s ->
  (evaluateExpression e m stateId = true <-> s_name s <> thirdToken e).
Proof.
  intros Hne Hs. apply contains_spec in Hne. apply findState_first in Hs.
  unfold evaluateExpression. rewrite Hs, Hne, parseValue_spec.
  rewrite negb_true_iff. apply String.eqb_neq.
Qed.

Lemma evaluateExpression_inequality_witness :
  evaluateExpression "A !== B" scenario1 "B" = true <->
  "B" <> thirdToken "A !== B".
Proof.
  apply (evaluateExpression_inequality scenario1 "B"
           (st "B" "B" false false) "A !== B").
  - exists "A ", "= B". reflexivity.
  - exists [st "A" "A" true false], [st "C" "C" false true].
    repeat split. intros p [<-|[]]. discriminate.
Defined.

(** ** The empty identifier *)

(** C2 at the failing input: the machine has a state flagged initial, the
    report counts it and calls the machine valid, but the reachable set is
    empty and so does not contain that state. *)
Theorem reachable_misses_empty_id_initial :
  In (st "" "Start" true false) (states emptyIdMachine) /\
  isInitial (st "" "Start" true false) = true /\
  reachableStatesBFS emptyIdMachine = [] /\
  StrSet.mem (s_id (st "" "Start" true false))
             (reachableStatesBFS emptyIdMachine) = false /\
  isValid (generateReport emptyIdMachine) = true /\
  warnings (generateReport emptyIdMachine) =
    ["WARNING: Unreachable state: Start";
     "WARNING: Potential deadlock state: ";
     "WARNING: No final state is reachable"].
Proof. repeat split. now left. Qed.

(** C5 at the failing input: the first state flagged initial is the one
    with the empty id, B can be reached from it, and yet the traversal is
    not run from it: the reachable set is empty. *)
Theorem traversal_not_seeded_by_empty_id :
  states emptyIdSeedMachine
    = [] ++ st "" "Start" true false :: [st "B" "B" false false] /\
  isInitial (st "" "Start" true false) = true /\
  Reach (transitions emptyIdSeedMachine) (s_id (st "" "Start" true false)) "B" /\
  reachableStatesBFS emptyIdSeedMachine = [].
Proof.
  repeat split.
  apply (Reach_step _ _ (tr "t1" "" "B")); [constructor | now left].
Qed.

(** ** Further properties of the traversal and of the report *)

Lemma bfsLoop_more_fuel (ts : list Transition) (k fuel : nat) :
  forall st, queue (bfsLoop fuel ts st) = [] ->
             bfsLoop (fuel + k) ts st = bfsLoop fuel ts st.
Proof.
  induction fuel as [|fuel IH]; intros st Hq; simpl in *.
  - now apply bfsLoop_done.
  - destruct (queue st); [reflexivity | now apply IH].
Qed.

(** The [while] loop of [reachableStatesBFS] is left with an empty queue
    within the turns the model gives it, for every machine, and further
    turns would change nothing. *)
Theorem traversal_terminates (m : StateMachine) :
  queue (bfsLoop (bfsFuel m) (transitions m)
           (bfsStart (findInitialStateId (states m)))) = [] /\
  forall k,
    bfsLoop (bfsFuel m + k) (transitions m)
      (bfsStart (findInitialStateId (states m))) =
    bfsLoop (bfsFuel m) (transitions m)
      (bfsStart (findInitialStateId (states m))).
Proof.
  assert (H := bfsLoop_terminates (transitions m)
                 (findInitialStateId (states m))).
  split; [exact H|]. intros k. now apply bfsLoop_more_fuel.
Qed.

(** The reachable set is closed under outgoing transitions, for every
    machine. *)
Theorem reachable_set_closed (m : StateMachine) (s : string)
    (t : Transition) :
  In s (reachableStatesBFS m) -> In t (transitions m) -> from t = s ->
  In (to t) (reachableStatesBFS m).
Proof. apply reachable_closed. Qed.

Lemma reachable_set_closed_witness :
  In "C" (reachableStatesBFS scenario1).
Proof.
  apply (reachable_set_closed scenario1 "B" (tr "t2" "B" "C")).
  - right. left. reflexivity.
  - right. left. reflexivity.
  - reflexivity.
Defined.

(** When the first state flagged initial has a non-empty id, the
    reachable set contains that id and is exactly the set of identifiers
    that can be reached from it along the transitions; later flagged
    states play no part. *)
Theorem reachable_set_from_first_initial (m : StateMachine)
    (pre post : list State) (s : State) :
  states m = pre ++ s :: post ->
  (forall p, In p pre -> isInitial p = false) ->
  isInitial s = true ->
  s_id s <> "" ->
  In (s_id s) (reachableStatesBFS m) /\
  forall x, In x (reachableStatesBFS m) <->
            Reach (transitions m) (s_id s) x.
Proof.
  intros E Hpre Hs Hid.
  assert (F : findInitialStateId (states m) = s_id s)
    by (rewrite E; now apply findInitialStateId_first).
  assert (N : findInitialStateId (states m) <> "") by congruence.
  split.
  - rewrite <- F. now apply reachable_initial.
  - intros x. rewrite <- F. now apply reachable_spec.
Qed.

Lemma reachable_set_from_first_initial_witness :
  In "A" (reachableStatesBFS scenario4) /\
  forall x, In x (reachableStatesBFS scenario4) <->
            Reach (transitions scenario4) "A" x.
Proof.
  apply (reachable_set_from_first_initial scenario4 []
           [st "B" "B" false false; st "D" "D" true false]
           (st "A" "A" true false)).
  - reflexivity.
  - intros p [].
  - reflexivity.
  - discriminate.
Defined.

(** When no state is flagged initial the reachable set is empty: the
    first state of the list is not used instead. *)
Theorem reachable_set_empty_without_initial (m : StateMachine) :
  (forall s, In s (states m) -> isInitial s = false) ->
  reachableStatesBFS m = [].
Proof.
  intros H. apply reachable_empty_id. now apply findInitialStateId_none.
Qed.

Lemma reachable_set_empty_without_initial_witness :
  reachableStatesBFS scenario3 = [].
Proof.
  apply (reachable_set_empty_without_initial scenario3).
  intros s [<-|[<-|[]]]; reflexivity.
Defined.

Lemma int_of_size_small (n : nat) :
  (Z.of_nat n < 2 ^ 31)%Z -> int_of_size n = Z.of_nat n.
Proof.
  intros H. unfold int_of_size. rewrite Z.mod_small; lia.
Qed.

(** Every member of the reachable set is the id of a listed state when
    all transition targets are. *)
Lemma reachable_ids_listed (m : StateMachine) :
  (forall t, In t (transitions m) -> isStateId (states m) (to t)) ->
  incl (reachableStatesBFS m) (map s_id (states m)).
Proof.
  intros Hto x Hx. apply in_map_iff.
  destruct (reachable_origin m x Hx) as [->|(t & Ht & <-)].
  - destruct (string_dec (findInitialStateId (states m)) "") as [E|E].
    + rewrite (reachable_empty_id m E) in Hx. contradiction.
    + destruct (findInitialStateId_In (states m) E) as (s & Hin & _ & Hid).
      exists s. auto.
  - destruct (Hto t Ht) as (s & Hin & Hid). exists s. auto.
Qed.

(** When every transition target names a listed state (and the state
    count fits an [int]), every listed state outside the reachable set
    is warned about: the guard of the warning loop cannot hide it. *)
Theorem unreachable_warning_valid_targets (m : StateMachine) (s : State) :
  (forall t, In t (transitions m) -> isStateId (states m) (to t)) ->
  (Z.of_nat (List.length (states m)) < 2 ^ 31)%Z ->
  In s (states m) ->
  ~ In (s_id s) (reachableStatesBFS m) ->
  In ("WARNING: Unreachable state: " ++ s_name s)%string
     (warnings (generateReport m)).
Proof.
  intros Hto Hsmall Hin Hout.
  apply unreachable_warning_emitted; [|assumption|assumption].
  assert (Hlen : List.length (s_id s :: reachableStatesBFS m)
                 <= List.length (map s_id (states m))).
  { apply NoDup_incl_length.
    - constructor; [assumption | apply reachable_NoDup].
    - intros x [<-|Hx]; [now apply in_map | now apply reachable_ids_listed]. }
  rewrite length_map in Hlen. simpl in Hlen. unfold StrSet.size.
  rewrite !int_of_size_small; lia.
Qed.

Lemma unreachable_warning_valid_targets_witness :
  In "WARNING: Unreachable state: D" (warnings (generateReport scenario4)).
Proof.
  apply (unreachable_warning_valid_targets scenario4 (st "D" "D" true false)).
  - intros t [<-|[]]. exists (st "B" "B" false false).
    split; [right; left; reflexivity | reflexivity].
  - reflexivity.
  - right. right. left. reflexivity.
  - cbv. intros [H|[H|[]]]; discriminate.
Defined.

Lemma insert_HdRel (a x : string) (s : StrSet.t) :
  str_lt a x -> HdRel str_lt a s -> HdRel str_lt a (StrSet.insert x s).
Proof.
  intros Hax Hs. destruct s as [|b s]; simpl.
  - now constructor.
  - destruct (String.compare x b); [assumption | now constructor |].
    inversion Hs; subst. now constructor.
Qed.

Lemma insert_Sorted (x : string) (s : StrSet.t) :
  Sorted str_lt s -> Sorted str_lt (StrSet.insert x s).
Proof.
  induction s as [|a s IH]; simpl; intros Hs.
  - repeat constructor.
  - destruct (String.compare x a) eqn:E.
    + assumption.
    + constructor; [assumption | now constructor].
    + inversion Hs; subst. constructor; [now apply IH|].
      apply insert_HdRel; [|assumption].
      unfold str_lt. rewrite String.compare_antisym, E. reflexivity.
Qed.

Lemma bfsLoop_Sorted (ts : list Transition) (init : string) (fuel : nat) :
  Sorted str_lt (reachable (bfsLoop fuel ts (bfsStart init))).
Proof.
  apply (bfsLoop_invariant ts (fun st => Sorted str_lt (reachable st))).
  - intros st Hst _. unfold bfsStep.
    destruct (queue st) as [|cur rest]; [assumption|].
    unfold visitOutgoing.
    apply (fold_left_invariant _ (fun s => Sorted str_lt (reachable s)));
      [|assumption].
    intros a t _ Ha. unfold visitTransition.
    destruct (from t =? cur)%string; [|assumption].
    destruct (negb (StrSet.mem (to t) (reachable a))); [|assumption].
    simpl. now apply insert_Sorted.
  - simpl. repeat constructor.
Qed.

(** The reachable set is enumerated in strictly ascending order of its
    identifiers and without repetition, as the iteration over a
    [std::set] is. *)
Theorem reachable_set_ascending (m : StateMachine) :
  Sorted str_lt (getReachableStates m) /\ NoDup (getReachableStates m).
Proof.
  unfold getReachableStates, StrSet.elements.
  split; [|apply reachable_NoDup].
  unfold reachableStatesBFS.
  destruct (findInitialStateId (states m) =? "")%string;
    [constructor | apply bfsLoop_Sorted].
Qed.

(** [isStateReachable] answers by membership in the reachable set and
    never fills in a path. *)
Theorem isStateReachable_spec (m : StateMachine) (targetStateId : string) :
  (isReachable (isStateReachable m targetStateId) = true <->
   In targetStateId (reachableStatesBFS m)) /\
  path (isStateReachable m targetStateId) = [].
Proof.
  unfold isStateReachable. rewrite <- mem_In.
  destruct (StrSet.mem targetStateId (reachableStatesBFS m)); simpl;
    split; try reflexivity; split; congruence.
Qed.

(** With ["!="] in the expression the invariant holds iff every
    identifier of the reachable set resolves to a state whose display
    name differs from the third token. *)
Lemma holds_inequality (m : StateMachine) (e : string) :
  Substring "!=" e ->
  (holds (checkInvariant m e) = true <->
   forall x, In x (reachableStatesBFS m) ->
     exists s, findState (states m) x = Some s /\ s_name s <> thirdToken e).
Proof.
  intros Hne. apply contains_spec in Hne.
  unfold checkInvariant, getReachableStates, StrSet.elements.
  rewrite checkInvariant_loop_holds, forallb_forall.
  split; intros H x Hx; specialize (H x Hx); unfold evaluateExpression in *;
    rewrite Hne, parseValue_spec in *.
  - destruct (findState (states m) x) as [s|]; [|discriminate].
    exists s. split; [reflexivity|].
    now apply String.eqb_neq, negb_true_iff.
  - destruct H as (s & -> & Hs). now apply negb_true_iff, String.eqb_neq.
Qed.

(** With ["!="] in the expression the invariant holds iff every
    identifier of the reachable set resolves to a state whose display
    name differs from the third token. *)
Theorem checkInvariant_inequality (m : StateMachine) (e : string) :
  Substring "!=" e ->
  (holds (checkInvariant m e) = true <->
   forall x, In x (reachableStatesBFS m) ->
     exists s, findState (states m) x = Some s /\ s_name s <> thirdToken e).
Proof. apply holds_inequality. Qed.

Lemma checkInvariant_inequality_witness :
  holds (checkInvariant scenario1 "state != dead") = true <->
  forall x, In x (reachableStatesBFS scenario1) ->
    exists s, findState (states scenario1) x = Some s /\
              s_name s <> thirdToken "state != dead".
Proof.
  apply (checkInvariant_inequality scenario1 "state != dead").
  exists "state ", " dead". reflexivity.
Defined.

(** With ["=="] but no ["!="] in the expression, the predicate for the
    state that an identifier stands for (the first listed state with that
    id) holds iff its display name equals the third token. *)
Theorem evaluateExpression_equality (m : StateMachine) (stateId : string)
    (s : State) (e : string) :
  ~ Substring "!=" e -> Substring "==" e ->
  firstWithId (states m) stateId s ->
  (evaluateExpression e m stateId = true <-> s_name s = thirdToken e).
Proof.
  intros Hne Heq Hs. apply contains_false in Hne. apply contains_spec in Heq.
  apply findState_first in Hs.
  unfold evaluateExpression. rewrite Hs, Hne, Heq, parseValue_spec.
  apply String.eqb_eq.
Qed.

Lemma evaluateExpression_equality_witness :
  evaluateExpression "state == B" scenario1 "B" = true <->
  "B" = thirdToken "state == B".
Proof.
  apply (evaluateExpression_equality scenario1 "B"
           (st "B" "B" false false) "state == B").
  - intro H. apply contains_spec in H. discriminate H.
  - exists "state ", " B". reflexivity.
  - exists [st "A" "A" true false], [st "C" "C" false true].
    repeat split. intros p [<-|[]]. discriminate.
Defined.

(** A violated invariant is reported at the first identifier, in the
    order of the set, whose predicate fails; the failing path is that one
    identifier. *)
Theorem checkInvariant_first_violation (m : StateMachine) (e : string) :
  holds (checkInvariant m e) = false ->
  exists pre x post,
    getReachableStates m = pre ++ x :: post /\
    (forall y, In y pre -> evaluateExpression e m y = true) /\
    evaluateExpression e m x = false /\
    checkInvariant m e =
      {| holds := false; failingState := x; failingPath := [x];
         i_message := "Invariant violated at state: " ++ x |}.
Proof.
  unfold checkInvariant. induction (getReachableStates m) as [|a l IH]; simpl.
  - discriminate.
  - destruct (evaluateExpression e m a) eqn:E; simpl.
    + intros H. destruct (IH H) as (pre & x & post & -> & Hpre & Hx & Hr).
      exists (a :: pre), x, post. repeat split; auto.
      intros y [<-|Hy]; auto.
    + intros _. exists [], a, l. repeat split; auto.
Qed.

Lemma checkInvariant_first_violation_witness :
  exists pre x post,
    getReachableStates scenario1 = pre ++ x :: post /\
    (forall y, In y pre -> evaluateExpression "s != B" scenario1 y = true) /\
    evaluateExpression "s != B" scenario1 x = false /\
    checkInvariant scenario1 "s != B" =
      {| holds := false; failingState := x; failingPath := [x];
         i_message := "Invariant violated at state: " ++ x |}.
Proof.
  apply (checkInvariant_first_violation scenario1 "s != B"). reflexivity.
Defined.

(** The four scenarios of the specification. *)
Theorem scenarios :
  (reachableStatesBFS scenario1 = ["A"; "B"; "C"] /\
   findDeadlocks scenario1 = [] /\
   isReachable (canReachFinalState scenario1) = true /\
   isValid (generateReport scenario1) = true)
  /\
  (findDeadlocks (machine [st "A" "A" true false; st "B" "B" false false] [])
   = ["A"; "B"] /\
   findDeadlocks
     (machine [st "A" "A" true false; st "B" "B" false false]
              [tr "t1" "A" "A"]) = ["B"])
  /\
  (isValid (generateReport scenario3) = false /\
   errors (generateReport scenario3) = ["ERROR: No initial state defined"] /\
   reachableStates (generateReport scenario3) = 0%Z)
  /\
  (isValid (generateReport scenario4) = false /\
   errors (generateReport scenario4)
     = ["ERROR: Multiple initial states defined"] /\
   reachableStatesBFS scenario4 = ["A"; "B"]).
Proof. repeat split. Qed.

(** ** The lists of the report, entry by entry *)

Lemma warnings_warnUnreachable (reach : list string) (sts : list State) :
  forall r,
    warnings (fold_left (warnUnreachable reach) sts r) =
    warnings r ++ unreachableWarnings reach sts.
Proof.
  unfold unreachableWarnings.
  induction sts as [|s sts IH]; intros r; simpl.
  - now rewrite app_nil_r.
  - rewrite IH. unfold warnUnreachable.
    destruct (negb (vec_contains reach (s_id s))); simpl;
      [rewrite <- app_assoc|]; reflexivity.
Qed.

Lemma warnings_deadlockWarnings (ds : list string) :
  forall r,
    warnings
      (fold_left
         (fun r' deadlock =>
            addWarning ("WARNING: Potential deadlock state: " ++ deadlock) r')
         ds r) =
    warnings r ++ deadlockWarnings ds.
Proof.
  unfold deadlockWarnings. induction ds as [|d ds IH]; intros r; simpl.
  - now rewrite app_nil_r.
  - rewrite IH. simpl. now rewrite <- app_assoc.
Qed.

Lemma warnings_deadlockDetection (m : StateMachine) (r : VerificationReport) :
  warnings (deadlockDetection m r) =
  warnings r ++ deadlockWarnings (findDeadlocks m).
Proof.
  unfold deadlockDetection. simpl deadlocks.
  destruct (findDeadlocks m) as [|d ds] eqn:E.
  - simpl. now rewrite app_nil_r.
  - now rewrite warnings_deadlockWarnings.
Qed.

Lemma warnings_checkTransitions (m : StateMachine) (ts : list Transition) :
  forall r, warnings (fold_left (checkTransition m) ts r) = warnings r.
Proof.
  induction ts as [|t ts IH]; intros r; simpl; [reflexivity|].
  rewrite IH. unfold checkTransition.
  destruct (endpointsExist (states m) t) as [[|] [|]]; reflexivity.
Qed.

Lemma warnings_structural (m : StateMachine) :
  warnings (checkTransitions m (checkInitialState m initReport)) = [].
Proof.
  unfold checkTransitions. rewrite warnings_checkTransitions.
  unfold checkInitialState.
  destruct (initialCount (states m) =? 0)%nat; [reflexivity|].
  destruct (1 <? initialCount (states m))%nat; reflexivity.
Qed.

(** The warnings of the report: the unreachable states (when the guard on
    the two counts lets the loop run), then the deadlocks, then the
    missing final state. *)
Lemma warnings_exact (m : StateMachine) :
  warnings (generateReport m) =
    (if (reachableStates (generateReport m)
         <? totalStates (generateReport m))%Z
     then unreachableWarnings (getReachableStates m) (states m)
     else [])
    ++ deadlockWarnings (findDeadlocks m)
    ++ (if isReachable (canReachFinalState m) then []
        else ["WARNING: No final state is reachable"]).
Proof.
  destruct (generateReport_counts m) as [-> ->].
  unfold generateReport, makeSummary, setSummary. simpl warnings.
  unfold finalStateCheck.
  set (r2 := checkTransitions m (checkInitialState m initReport)).
  assert (W : warnings (deadlockDetection m (reachabilityAnalysis m r2)) =
    (if (int_of_size (StrSet.size (reachableStatesBFS m))
         <? int_of_size (List.length (states m)))%Z
     then unreachableWarnings (getReachableStates m) (states m)
     else []) ++ deadlockWarnings (findDeadlocks m)).
  { rewrite warnings_deadlockDetection. f_equal.
    unfold reachabilityAnalysis. simpl reachableStates. simpl totalStates.
    unfold getReachableStates at 1, StrSet.elements, StrSet.size.
    destruct (_ <? _)%Z.
    - rewrite warnings_warnUnreachable. simpl warnings.
      unfold r2. now rewrite warnings_structural.
    - simpl warnings. unfold r2. apply warnings_structural. }
  destruct (isReachable (canReachFinalState m)); simpl warnings.
  - now rewrite W, app_nil_r.
  - now rewrite W, <- app_assoc.
Qed.

(** The warnings of the report, in order: those for the listed states
    outside the reachable set (only when the reported reachable count is
    below the reported state count), one per deadlock, and the one for the
    missing final state. *)
Theorem generateReport_warnings (m : StateMachine) :
  warnings (generateReport m) =
    (if (reachableStates (generateReport m)
         <? totalStates (generateReport m))%Z
     then unreachableWarnings (getReachableStates m) (states m)
     else [])
    ++ deadlockWarnings (findDeadlocks m)
    ++ (if isReachable (canReachFinalState m) then []
        else ["WARNING: No final state is reachable"]).
Proof. apply warnings_exact. Qed.

Lemma errors_checkTransitions (m : StateMachine) (ts : list Transition) :
  forall r,
    errors (fold_left (checkTransition m) ts r) =
    errors r ++ flat_map (endpointErrors m) ts.
Proof.
  induction ts as [|t ts IH]; intros r; simpl.
  - now rewrite app_nil_r.
  - rewrite IH. unfold checkTransition, endpointErrors.
    rewrite endpointsExist_spec.
    destruct (existsb _ _), (existsb _ _); simpl;
      rewrite <- ?app_assoc; reflexivity.
Qed.

(** The errors of the report: the one about the number of initial states,
    if any, then those of the transitions in order, source before target. *)
Lemma errors_exact (m : StateMachine) :
  errors (generateReport m) =
    initialErrors (states m) ++ flat_map (endpointErrors m) (transitions m).
Proof.
  rewrite generateReport_laterSteps.
  rewrite (ext_errors _ _ (laterSteps_extends m _)).
  destruct (reachabilityAnalysis_counts m
              (checkTransitions m (checkInitialState m initReport)))
    as (_ & _ & _ & ->).
  unfold checkTransitions. rewrite errors_checkTransitions. f_equal.
  unfold checkInitialState, initialErrors.
  destruct (initialCount (states m) =? 0)%nat; [reflexivity|].
  destruct (1 <? initialCount (states m))%nat; reflexivity.
Qed.

(** The errors of the report, in order: the one about the number of
    initial states, if any, then those of the transitions, source before
    target. *)
Theorem generateReport_errors (m : StateMachine) :
  errors (generateReport m) =
    initialErrors (states m) ++ flat_map (endpointErrors m) (transitions m).
Proof. apply errors_exact. Qed.

(** The verdict is [false] exactly when the report carries an error, and
    the summary line spells the counts and the verdict out. *)
Theorem generateReport_verdict (m : StateMachine) :
  (isValid (generateReport m) = true <-> errors (generateReport m) = []) /\
  summary (generateReport m) =
    ("States: " ++ show_int (totalStates (generateReport m))
     ++ " (Reachable: " ++ show_int (reachableStates (generateReport m))
     ++ ") | Transitions: " ++ show_size (List.length (transitions m))
     ++ " | Status: "
     ++ (if isValid (generateReport m) then "VALID" else "INVALID"))%string.
Proof.
  split; [|reflexivity].
  rewrite errors_exact.
  rewrite generateReport_laterSteps, laterSteps_isValid.
  unfold checkTransitions.
  rewrite isValid_checkTransitions, isValid_checkInitialState. simpl.
  unfold initialErrors.
  destruct (initialCount (states m)) as [|[|n]]; simpl;
    try (split; discriminate).
  induction (transitions m) as [|t ts IH]; simpl; [tauto|].
  unfold endpointErrors at 1, bothExist at 1.
  destruct (existsb _ _), (existsb _ _); simpl; try (split; discriminate).
  exact IH.
Qed.

(** When the reported reachable count is not below the reported state
    count, the report has no warning about an unreachable state, whatever
    the reachable set is. *)
Theorem no_unreachable_warning_otherwise (m : StateMachine) (name : string) :
  (totalStates (generateReport m) <= reachableStates (generateReport m))%Z ->
  ~ In ("WARNING: Unreachable state: " ++ name)%string
       (warnings (generateReport m)).
Proof.
  intros Hge. rewrite warnings_exact.
  apply Z.ltb_ge in Hge. rewrite Hge. simpl app.
  intros Hin. apply in_app_or in Hin. destruct Hin as [Hin|Hin].
  - unfold deadlockWarnings in Hin. apply in_map_iff in Hin.
    destruct Hin as (d & Hd & _). discriminate Hd.
  - destruct (isReachable (canReachFinalState m)); [contradiction|].
    destruct Hin as [H|[]]. discriminate H.
Qed.

Lemma no_unreachable_warning_otherwise_witness :
  ~ In "WARNING: Unreachable state: B" (warnings (generateReport danglingMachine)).
Proof.
  apply (no_unreachable_warning_otherwise danglingMachine "B").
  discriminate.
Defined.

(** ** The engine reads states and transition endpoints only *)

Section SameEndpoints.

Variables ts ts' : list Transition.
Hypothesis Hts : map endpoints ts = map endpoints ts'.

Lemma fold_left_same_keys {A B K : Type} (g : B -> K) (f : A -> B -> A) :
  (forall a x y, g x = g y -> f a x = f a y) ->
  forall l l', map g l = map g l' ->
  forall a, fold_left f l a = fold_left f l' a.
Proof.
  intros Hf. induction l as [|x l IH]; intros [|y l'] E a;
    simpl in *; try discriminate; [reflexivity|].
  injection E as Exy El. rewrite (Hf a x y Exy). now apply IH.
Qed.

Lemma visitTransition_endpoints (cur : string) (st : BfsState)
    (t t' : Transition) :
  endpoints t = endpoints t' ->
  visitTransition cur st t = visitTransition cur st t'.
Proof.
  unfold endpoints, visitTransition. intros [= -> ->]. reflexivity.
Qed.

Lemma bfsStep_endpoints (st : BfsState) : bfsStep ts st = bfsStep ts' st.
Proof.
  unfold bfsStep, visitOutgoing. destruct (queue st); [reflexivity|].
  apply (fold_left_same_keys endpoints); [|exact Hts].
  intros a x y. apply visitTransition_endpoints.
Qed.

Lemma bfsLoop_endpoints (fuel : nat) :
  forall st, bfsLoop fuel ts st = bfsLoop fuel ts' st.
Proof.
  induction fuel as [|fuel IH]; intros st; simpl; [reflexivity|].
  destruct (queue st); [reflexivity|]. now rewrite bfsStep_endpoints.
Qed.

Lemma length_endpoints : List.length ts = List.length ts'.
Proof.
  rewrite <- (length_map endpoints ts), Hts. apply length_map.
Qed.

Lemma map_from_endpoints : map from ts = map from ts'.
Proof.
  assert (E : forall l, map from l = map fst (map endpoints l))
    by (intros l; rewrite map_map; reflexivity).
  now rewrite !E, Hts.
Qed.

Lemma noOutgoing_endpoints (x : string) : noOutgoing ts x = noOutgoing ts' x.
Proof. now rewrite !noOutgoing_map, map_from_endpoints. Qed.

Lemma isLivelock_loop_endpoints (x : string) :
  isLivelock_loop ts x = isLivelock_loop ts' x.
Proof.
  revert ts' Hts. induction ts as [|t l IH]; intros [|t' l'] E;
    simpl in *; try discriminate; [reflexivity|].
  injection E as Ef Et El. rewrite Ef, Et, (IH l' El). reflexivity.
Qed.

End SameEndpoints.

Lemma fold_left_pointwise {A B : Type} (f g : A -> B -> A) :
  (forall a b, f a b = g a b) ->
  forall l a, fold_left f l a = fold_left g l a.
Proof.
  intros H. induction l as [|b l IH]; intros a; simpl; [reflexivity|].
  now rewrite H, IH.
Qed.

Section SameGraph.

Variables m m' : StateMachine.
Hypothesis Hsame : sameGraph m m'.

Lemma sameGraph_reachable : reachableStatesBFS m = reachableStatesBFS m'.
Proof.
  destruct Hsame as [Hs Ht]. unfold reachableStatesBFS, bfsFuel.
  rewrite Hs, (length_endpoints _ _ Ht).
  destruct (findInitialStateId (states m') =? "")%string; [reflexivity|].
  now rewrite (bfsLoop_endpoints _ _ Ht).
Qed.

Lemma sameGraph_isDeadlock (x : string) : isDeadlock m x = isDeadlock m' x.
Proof.
  destruct Hsame as [_ Ht]. unfold isDeadlock.
  rewrite !isDeadlock_loop_noOutgoing. now apply noOutgoing_endpoints.
Qed.

Lemma sameGraph_findDeadlocks : findDeadlocks m = findDeadlocks m'.
Proof.
  unfold findDeadlocks. destruct Hsame as [Hs _]. rewrite Hs.
  apply fold_left_pointwise.
  intros acc s. now rewrite sameGraph_isDeadlock.
Qed.

Lemma sameGraph_canReachFinalState :
  canReachFinalState m = canReachFinalState m'.
Proof.
  unfold canReachFinalState. destruct Hsame as [Hs _].
  now rewrite sameGraph_reachable, Hs.
Qed.

Lemma sameGraph_evaluateExpression (e x : string) :
  evaluateExpression e m x = evaluateExpression e m' x.
Proof.
  unfold evaluateExpression. destruct Hsame as [Hs _]. now rewrite Hs.
Qed.

Lemma sameGraph_checkInvariant (e : string) :
  checkInvariant m e = checkInvariant m' e.
Proof.
  unfold checkInvariant, getReachableStates. rewrite sameGraph_reachable.
  induction (StrSet.elements (reachableStatesBFS m')) as [|x l IH]; simpl;
    [reflexivity|].
  now rewrite sameGraph_evaluateExpression, IH.
Qed.

Lemma sameGraph_checkTransitions (r : VerificationReport) :
  checkTransitions m r = checkTransitions m' r.
Proof.
  destruct Hsame as [Hs Ht]. unfold checkTransitions.
  rewrite (fold_left_pointwise (checkTransition m) (checkTransition m')).
  - apply (fold_left_same_keys endpoints); [|exact Ht].
    intros a x y. unfold endpoints, checkTransition, endpointsExist.
    intros [= -> ->]. reflexivity.
  - intros a t. unfold checkTransition. now rewrite Hs.
Qed.

Lemma sameGraph_generateReport : generateReport m = generateReport m'.
Proof.
  unfold generateReport.
  assert (E1 : forall r, checkInitialState m r = checkInitialState m' r).
  { intros r. unfold checkInitialState. destruct Hsame as [-> _]. reflexivity. }
  assert (E2 : forall r, reachabilityAnalysis m r = reachabilityAnalysis m' r).
  { intros r. unfold reachabilityAnalysis, getReachableStates.
    rewrite sameGraph_reachable. destruct Hsame as [-> _]. reflexivity. }
  assert (E3 : forall r, deadlockDetection m r = deadlockDetection m' r).
  { intros r. unfold deadlockDetection. now rewrite sameGraph_findDeadlocks. }
  assert (E4 : forall r, finalStateCheck m r = finalStateCheck m' r).
  { intros r. unfold finalStateCheck.
    now rewrite sameGraph_canReachFinalState. }
  assert (E5 : forall r, makeSummary m r = makeSummary m' r).
  { intros r. unfold makeSummary. destruct Hsame as [_ Ht].
    now rewrite (length_endpoints _ _ Ht). }
  now rewrite E1, sameGraph_checkTransitions, E2, E3, E4, E5.
Qed.

End SameGraph.

(** Machine id, name and type and the id and labels of transitions have
    no effect on any result of the engine: two machines with the same
    states and the same transition endpoints get the same report, the same
    invariant results, the same deadlocks and the same reachability and
    livelock answers. *)
Theorem engine_ignores_labels (m m' : StateMachine) :
  sameGraph m m' ->
  generateReport m = generateReport m' /\
  (forall e, checkInvariant m e = checkInvariant m' e) /\
  findDeadlocks m = findDeadlocks m' /\
  canReachFinalState m = canReachFinalState m' /\
  (forall x, isStateReachable m x = isStateReachable m' x) /\
  (forall x, isDeadlock m x = isDeadlock m' x) /\
  (forall x, isLivelock m x = isLivelock m' x).
Proof.
  intros H. split; [now apply sameGraph_generateReport|].
  split; [intros e; now apply sameGraph_checkInvariant|].
  split; [now apply sameGraph_findDeadlocks|].
  split; [now apply sameGraph_canReachFinalState|].
  split; [|split].
  - intros x. unfold isStateReachable. now rewrite (sameGraph_reachable m m').
  - intros x. now apply sameGraph_isDeadlock.
  - intros x. unfold isLivelock. apply isLivelock_loop_endpoints. apply H.
Qed.

Lemma engine_ignores_labels_witness :
  generateReport scenario1 =
  generateReport
    {| m_id := "other"; m_name := "renamed"; m_type := "mealy";
       states := states scenario1;
       transitions :=
         [ {| t_id := "x"; from := "A"; to := "B";
              input := "go"; output := "1" |};
           {| t_id := "y"; from := "B"; to := "C";
              input := "stop"; output := "0" |} ] |}.
Proof.
  apply (engine_ignores_labels scenario1). split; reflexivity.
Defined.

(** ** The reachable set as a function of the edge set *)

Lemma str_lt_trans (a b c : string) : str_lt a b -> str_lt b c -> str_lt a c.
Proof.
  exact (@RelationClasses.StrictOrder_Transitive _ _ OrdersEx.String_as_OT.lt_strorder a b c).
Qed.

Lemma str_lt_irrefl (a : string) : ~ str_lt a a.
Proof.
  exact (@RelationClasses.StrictOrder_Irreflexive _ _ OrdersEx.String_as_OT.lt_strorder a).
Qed.

Lemma Sorted_str_lt_head (a : string) (l : list string) :
  Sorted str_lt (a :: l) -> forall x, In x l -> str_lt a x.
Proof.
  intros H x Hx. apply Sorted_StronglySorted in H;
    [|intros u v w; apply str_lt_trans].
  inversion H as [|? ? _ Hall]; subst.
  rewrite Forall_forall in Hall. now apply Hall.
Qed.

(** An ascending list is determined by its members. *)
Lemma Sorted_str_lt_unique (l : list string) :
  forall l', Sorted str_lt l -> Sorted str_lt l' ->
             (forall x, In x l <-> In x l') -> l = l'.
Proof.
  induction l as [|a l IH]; intros [|b l'] Hl Hl' Hmem.
  - reflexivity.
  - exfalso. apply (proj2 (Hmem b)). now left.
  - exfalso. apply (proj1 (Hmem a)). now left.
  - assert (Ha := Sorted_str_lt_head a l Hl).
    assert (Hb := Sorted_str_lt_head b l' Hl').
    assert (a = b) as <-.
    { destruct (proj1 (Hmem a) (or_introl eq_refl)) as [E|Hin]; [auto|].
      destruct (proj2 (Hmem b) (or_introl eq_refl)) as [E|Hin']; [auto|].
      exfalso. apply (str_lt_irrefl a).
      apply (str_lt_trans a b a); auto. }
    f_equal. apply IH.
    + now inversion Hl.
    + now inversion Hl'.
    + intros x. split; intros Hx.
      * destruct (proj1 (Hmem x) (or_intror Hx)) as [<-|H]; [|assumption].
        exfalso. exact (str_lt_irrefl a (Ha a Hx)).
      * destruct (proj2 (Hmem x) (or_intror Hx)) as [<-|H]; [|assumption].
        exfalso. exact (str_lt_irrefl a (Hb a Hx)).
Qed.

Lemma reachable_Sorted (m : StateMachine) :
  Sorted str_lt (reachableStatesBFS m).
Proof.
  unfold reachableStatesBFS.
  destruct (findInitialStateId (states m) =? "")%string;
    [constructor | apply bfsLoop_Sorted].
Qed.

Lemma Reach_edgesIncluded (ts ts' : list Transition) (a x : string) :
  edgesIncluded ts ts' -> Reach ts a x -> Reach ts' a x.
Proof.
  intros Hinc HR. induction HR as [|t HR IH Ht]; [constructor|].
  destruct (Hinc t Ht) as (t' & Ht' & E).
  unfold endpoints in E. injection E as Ef Et. rewrite <- Et.
  apply Reach_step; [now rewrite Ef | assumption].
Qed.

Lemma reachable_incl_edges (m m' : StateMachine) :
  states m = states m' ->
  edgesIncluded (transitions m) (transitions m') ->
  incl (reachableStatesBFS m) (reachableStatesBFS m').
Proof.
  intros Hs Hinc x Hx.
  destruct (string_dec (findInitialStateId (states m)) "") as [E|E].
  - rewrite (reachable_empty_id m E) in Hx. contradiction.
  - apply (reachable_spec m x E) in Hx. rewrite Hs in E, Hx.
    apply (reachable_spec m' x E).
    now apply (Reach_edgesIncluded (transitions m)).
Qed.

(** Adding transitions (or repeating or reordering them) never removes an
    identifier from the reachable set. *)
Theorem reachable_set_monotone (m m' : StateMachine) :
  states m = states m' ->
  edgesIncluded (transitions m) (transitions m') ->
  forall x, In x (reachableStatesBFS m) -> In x (reachableStatesBFS m').
Proof. intros Hs Hinc. now apply reachable_incl_edges. Qed.

Lemma reachable_set_monotone_witness :
  In "B" (reachableStatesBFS scenario1).
Proof.
  apply (reachable_set_monotone scenario1Cut scenario1).
  - reflexivity.
  - intros t [<-|[]]. exists (tr "t1" "A" "B"). split; [now left | reflexivity].
  - right. left. reflexivity.
Defined.

(** The reachable set depends on the transitions only through the set of
    their (from, to) pairs: order and repetition of transitions (multi-
    edges) do not change it, not even the order in which it is listed. *)
Theorem reachable_set_edges_only (m m' : StateMachine) :
  states m = states m' ->
  edgesIncluded (transitions m) (transitions m') ->
  edgesIncluded (transitions m') (transitions m) ->
  getReachableStates m = getReachableStates m'.
Proof.
  intros Hs H1 H2. unfold getReachableStates, StrSet.elements.
  apply Sorted_str_lt_unique; try apply reachable_Sorted.
  intros x. split; now apply reachable_incl_edges.
Qed.

Lemma reachable_set_edges_only_witness :
  getReachableStates scenario1 =
  getReachableStates
    (machine (states scenario1)
       [tr "u" "B" "C"; tr "v" "A" "B"; tr "w" "B" "C"]).
Proof.
  apply (reachable_set_edges_only scenario1).
  - reflexivity.
  - intros t [<-|[<-|[]]];
      [exists (tr "v" "A" "B") | exists (tr "u" "B" "C")];
      (split; [simpl; tauto | reflexivity]).
  - intros t [<-|[<-|[<-|[]]]];
      [exists (tr "t2" "B" "C") | exists (tr "t1" "A" "B")
       | exists (tr "t2" "B" "C")];
      (split; [simpl; tauto | reflexivity]).
Defined.

(** The reachable set has at most one member more than there are
    transitions, and each member is the selected initial id or the target
    of a transition whose source is itself in the set. *)
Theorem reachable_set_bounded (m : StateMachine) :
  StrSet.size (reachableStatesBFS m) <= S (List.length (transitions m)) /\
  forall x, In x (reachableStatesBFS m) ->
    x = findInitialStateId (states m) \/
    exists t, In t (transitions m) /\ to t = x /\
              In (from t) (reachableStatesBFS m).
Proof.
  split.
  - unfold StrSet.size.
    replace (S (List.length (transitions m)))
      with (List.length (findInitialStateId (states m)
                         :: map to (transitions m)))
      by (simpl; now rewrite length_map).
    apply NoDup_incl_length; [apply reachable_NoDup|].
    intros x Hx. destruct (reachable_origin m x Hx) as [->|(t & Ht & <-)];
      [now left | right; now apply in_map].
  - intros x Hx.
    destruct (string_dec (findInitialStateId (states m)) "") as [E|E].
    + rewrite (reachable_empty_id m E) in Hx. contradiction.
    + apply (reachable_spec m x E) in Hx.
      destruct Hx as [|t HR Ht]; [now left|].
      right. exists t. repeat split; [assumption|].
      now apply (reachable_spec m (from t) E).
Qed.

(** ** What a clean report means *)

Lemma fewer_reachable_than_states (m : StateMachine) (s : State) :
  (forall t, In t (transitions m) -> isStateId (states m) (to t)) ->
  In s (states m) ->
  ~ In (s_id s) (reachableStatesBFS m) ->
  List.length (reachableStatesBFS m) < List.length (states m).
Proof.
  intros Hto Hin Hout.
  assert (Hlen : List.length (s_id s :: reachableStatesBFS m)
                 <= List.length (map s_id (states m))).
  { apply NoDup_incl_length.
    - constructor; [assumption | apply reachable_NoDup].
    - intros x [<-|Hx]; [now apply in_map | now apply reachable_ids_listed]. }
  rewrite length_map in Hlen. simpl in Hlen. lia.
Qed.

Lemma noOutgoing_false (ts : list Transition) (x : string) :
  noOutgoing ts x = false <-> exists t, In t ts /\ from t = x.
Proof.
  unfold noOutgoing. induction ts as [|t ts IH]; simpl.
  - split; [discriminate | intros (t & [] & _)].
  - destruct (String.eqb_spec (from t) x) as [E|E]; simpl.
    + split; [intros _; exists t; auto | reflexivity].
    + rewrite IH. split.
      * intros (t' & Hin & Hf). exists t'. auto.
      * intros (t' & [<-|Hin] & Hf); [contradiction | exists t'; auto].
Qed.

Lemma findDeadlocks_nil (m : StateMachine) :
  findDeadlocks m = [] <-> noDeadEnd m.
Proof.
  unfold findDeadlocks, noDeadEnd. rewrite findDeadlocks_fold. simpl.
  split.
  - intros H s Hin Hfin. apply map_eq_nil in H.
    apply noOutgoing_false.
    destruct (noOutgoing (transitions m) (s_id s)) eqn:E; [|reflexivity].
    exfalso.
    assert (Hs : In s (filter
              (fun s0 => noOutgoing (transitions m) (s_id s0)
                         && negb (isFinal s0)) (states m)))
      by (apply filter_In; split; [assumption | now rewrite E, Hfin]).
    rewrite H in Hs. contradiction.
  - intros H.
    assert (E : filter (fun s0 => noOutgoing (transitions m) (s_id s0)
                                  && negb (isFinal s0)) (states m) = []).
    { apply filter_nil_iff. intros s Hin.
      destruct (isFinal s) eqn:Hfin; [now rewrite andb_false_r|].
      rewrite (proj2 (noOutgoing_false _ _) (H s Hin Hfin)). reflexivity. }
    now rewrite E.
Qed.

Lemma unreachableWarnings_nil (reach : list string) (sts : list State) :
  (forall s, In s sts -> In (s_id s) reach) ->
  unreachableWarnings reach sts = [].
Proof.
  intros H. unfold unreachableWarnings.
  assert (E : filter (fun s => negb (vec_contains reach (s_id s))) sts = []).
  { apply filter_nil_iff. intros s Hin. apply negb_false_iff.
    destruct (vec_contains reach (s_id s)) eqn:V; [reflexivity|].
    apply vec_contains_false in V. exfalso. apply V, H, Hin. }
  now rewrite E.
Qed.

(** For a machine that the report calls valid (and whose state count fits
    an [int]), the report has no warning at all exactly when every listed
    state is reachable, every non-final listed state has an outgoing
    transition, and some final state is reachable. *)
Theorem clean_report_meaning (m : StateMachine) :
  isValid (generateReport m) = true ->
  (Z.of_nat (List.length (states m)) < 2 ^ 31)%Z ->
  (warnings (generateReport m) = [] <->
   allReachable m /\ noDeadEnd m /\ finalReachable m).
Proof.
  intros Hvalid Hsmall.
  assert (Hto : forall t, In t (transitions m) -> isStateId (states m) (to t)).
  { rewrite generateReport_laterSteps, laterSteps_isValid in Hvalid.
    unfold checkTransitions in Hvalid.
    rewrite isValid_checkTransitions in Hvalid.
    apply andb_true_iff in Hvalid. destruct Hvalid as [_ Hv].
    apply forallb_bothExist in Hv. intros t Ht. apply (Hv t Ht). }
  split.
  - intros Hw. split; [|split].
    + intros s Hin.
      destruct (in_dec string_dec (s_id s) (reachableStatesBFS m))
        as [Hr|Hr]; [assumption|].
      exfalso.
      assert (Hlt := fewer_reachable_than_states m s Hto Hin Hr).
      assert (W : In ("WARNING: Unreachable state: " ++ s_name s)%string
                     (warnings (generateReport m))).
      { apply unreachable_warning_emitted; [|assumption|assumption].
        unfold StrSet.size. rewrite !int_of_size_small; lia. }
      rewrite Hw in W. contradiction.
    + rewrite warnings_exact in Hw.
      apply app_eq_nil in Hw. destruct Hw as [_ Hw].
      apply app_eq_nil in Hw. destruct Hw as [Hd _].
      apply map_eq_nil in Hd. now apply findDeadlocks_nil.
    + rewrite warnings_exact in Hw.
      apply app_eq_nil in Hw. destruct Hw as [_ Hw].
      apply app_eq_nil in Hw. destruct Hw as [_ Hf].
      destruct (isReachable (canReachFinalState m)) eqn:E; [|discriminate].
      apply canReachFinalState_loop_true in E.
      destruct E as (s & Hin & Hs). unfold reachableFinal in Hs.
      apply andb_true_iff in Hs. destruct Hs as [Hfin Hm].
      exists s. repeat split; [assumption | assumption | now apply mem_In].
  - intros (Hall & Hdead & (s & Hin & Hfin & Hr)).
    rewrite warnings_exact. unfold getReachableStates, StrSet.elements.
    rewrite (unreachableWarnings_nil _ _ Hall).
    apply findDeadlocks_nil in Hdead. rewrite Hdead.
    assert (E : isReachable (canReachFinalState m) = true).
    { apply canReachFinalState_loop_true. exists s. split; [assumption|].
      unfold reachableFinal. apply mem_In in Hr. now rewrite Hfin, Hr. }
    rewrite E. now destruct (_ <? _)%Z.
Qed.

Lemma clean_report_meaning_witness :
  warnings (generateReport scenario1) = [] <->
  allReachable scenario1 /\ noDeadEnd scenario1 /\ finalReachable scenario1.
Proof.
  apply (clean_report_meaning scenario1); reflexivity.
Defined.

(** ** Edge cases of the invariant check *)

(** Without a state flagged initial there is nothing to check: every
    expression is reported to hold, whatever it says. *)
Theorem checkInvariant_without_initial (m : StateMachine) (e : string) :
  (forall s, In s (states m) -> isInitial s = false) ->
  checkInvariant m e =
    {| holds := true; failingState := ""; failingPath := [];
       i_message := "Invariant holds on all reachable states" |}.
Proof.
  intros H. unfold checkInvariant, getReachableStates.
  rewrite (reachable_empty_id m (findInitialStateId_none _ H)).
  reflexivity.
Qed.

Lemma checkInvariant_without_initial_witness :
  checkInvariant scenario3 "state == nowhere" =
    {| holds := true; failingState := ""; failingPath := [];
       i_message := "Invariant holds on all reachable states" |}.
Proof.
  apply (checkInvariant_without_initial scenario3).
  intros s [<-|[<-|[]]]; reflexivity.
Defined.

(** An inequality written with fewer than three tokens (for instance
    without spaces around the operator) is compared with the empty
    string: it holds iff every reachable identifier resolves to a state
    with a non-empty display name. *)
Theorem checkInvariant_short_inequality (m : StateMachine) (e : string) :
  Substring "!=" e ->
  List.length (tokens e) < 3 ->
  (holds (checkInvariant m e) = true <->
   forall x, In x (reachableStatesBFS m) ->
     exists s, findState (states m) x = Some s /\ s_name s <> "").
Proof.
  intros Hne Hlen.
  assert (E : thirdToken e = "")
    by (unfold thirdToken; apply nth_overflow; lia).
  rewrite (holds_inequality m e Hne), E. reflexivity.
Qed.

Lemma checkInvariant_short_inequality_witness :
  holds (checkInvariant scenario1 "state!=C") = true <->
  forall x, In x (reachableStatesBFS scenario1) ->
    exists s, findState (states scenario1) x = Some s /\ s_name s <> "".
Proof.
  apply (checkInvariant_short_inequality scenario1 "state!=C").
  - exists "state", "C". reflexivity.
  - cbv. lia.
Defined.

(** ** The right-hand side of an invariant expression *)

Lemma hasSpace_append (a b : string) :
  hasSpace (a ++ b) = hasSpace a || hasSpace b.
Proof.
  unfold hasSpace. induction a as [|c a IH]; simpl; [reflexivity|].
  now rewrite IH, orb_assoc.
Qed.

Lemma splitWs_no_space (s : string) :
  forall acc, hasSpace acc = false ->
    forall t, In t (splitWs s acc) -> hasSpace t = false /\ t <> "".
Proof.
  induction s as [|c s IH]; intros acc Hacc t Ht; simpl in Ht.
  - destruct acc; [contradiction|]. destruct Ht as [<-|[]].
    split; [assumption | discriminate].
  - destruct (IStream.isspace c) eqn:Hc.
    + destruct acc as [|a acc].
      * now apply (IH "").
      * destruct Ht as [<-|Ht]; [split; [assumption | discriminate]|].
        now apply (IH "").
    + apply (IH (acc ++ String c "")%string); [|assumption].
      rewrite hasSpace_append, Hacc. unfold hasSpace. simpl. now rewrite Hc.
Qed.

Lemma thirdToken_no_space (e : string) : hasSpace (thirdToken e) = false.
Proof.
  unfold thirdToken.
  destruct (nth_in_or_default 2 (tokens e) "") as [Hin| ->]; [|reflexivity].
  now apply (splitWs_no_space e "" eq_refl).
Qed.

(** What [evaluateExpression] reads into [value] is the third
    white-space separated token of the expression, or the empty string
    when there are fewer than three; it never contains white space. *)
Theorem value_is_third_token (e : string) :
  parseValue e = nth 2 (tokens e) "" /\ hasSpace (parseValue e) = false.
Proof.
  split; [apply parseValue_spec|].
  rewrite parseValue_spec. apply thirdToken_no_space.
Qed.

(** A state whose display name contains white space can never be matched:
    for the identifier of such a state (the first listed state with that
    id) every inequality holds and every equality fails, whatever the
    right-hand side. *)
Theorem name_with_space_never_matches (m : StateMachine)
    (stateId : string) (s : State) (e : string) :
  firstWithId (states m) stateId s ->
  hasSpace (s_name s) = true ->
  (Substring "!=" e -> evaluateExpression e m stateId = true) /\
  (~ Substring "!=" e -> Substring "==" e ->
   evaluateExpression e m stateId = false).
Proof.
  intros Hs Hsp. apply findState_first in Hs.
  assert (N : (s_name s =? parseValue e)%string = false).
  { apply String.eqb_neq. intros E.
    pose proof (thirdToken_no_space e) as H.
    rewrite <- parseValue_spec, <- E, Hsp in H. discriminate. }
  unfold evaluateExpression. rewrite Hs. split.
  - intros Hne. apply contains_spec in Hne. now rewrite Hne, N.
  - intros Hne Heq. apply contains_false in Hne. apply contains_spec in Heq.
    now rewrite Hne, Heq.
Qed.

Lemma name_with_space_never_matches_witness :
  (Substring "!=" "s == My State" ->
   evaluateExpression "s == My State" spacedMachine "S" = true) /\
  (~ Substring "!=" "s == My State" -> Substring "==" "s == My State" ->
   evaluateExpression "s == My State" spacedMachine "S" = false).
Proof.
  apply (name_with_space_never_matches spacedMachine "S"
           (st "S" "My State" false false) "s == My State").
  - exists [st "A" "A" true false], []. repeat split.
    intros p [<-|[]]. discriminate.
  - reflexivity.
Defined.

(** ** Reachability answers and livelock, in terms of paths *)

(** When the first state flagged initial has a non-empty id,
    [isStateReachable] answers true exactly for the identifiers that can
    be reached from it along the transitions; this includes identifiers
    that name no state. *)
Theorem isStateReachable_by_path (m : StateMachine) (pre post : list State)
    (s : State) (targetStateId : string) :
  states m = pre ++ s :: post ->
  (forall p, In p pre -> isInitial p = false) ->
  isInitial s = true ->
  s_id s <> "" ->
  (isReachable (isStateReachable m targetStateId) = true <->
   Reach (transitions m) (s_id s) targetStateId).
Proof.
  intros E Hpre Hs Hid.
  assert (F : findInitialStateId (states m) = s_id s)
    by (rewrite E; now apply findInitialStateId_first).
  assert (N : findInitialStateId (states m) <> "") by congruence.
  rewrite <- F, <- (reachable_spec m targetStateId N), <- mem_In.
  unfold isStateReachable.
  destruct (StrSet.mem targetStateId (reachableStatesBFS m)); simpl;
    split; congruence.
Qed.

Lemma isStateReachable_by_path_witness :
  isReachable (isStateReachable danglingMachine "X") = true <->
  Reach (transitions danglingMachine) "A" "X".
Proof.
  apply (isStateReachable_by_path danglingMachine []
           [st "B" "B" false false] (st "A" "A" true false) "X").
  - reflexivity.
  - intros p [].
  - reflexivity.
  - discriminate.
Defined.

(** [isLivelock] holds exactly for the identifiers from which no other
    identifier can be reached. *)
Theorem isLivelock_traps (m : StateMachine) (x : string) :
  isLivelock m x = true <->
  forall y, Reach (transitions m) x y -> y = x.
Proof.
  rewrite isLivelock_spec. split.
  - intros H y HR. induction HR as [|t HR IH Ht]; [reflexivity|].
    apply H; assumption.
  - intros H t Ht Hf. apply H. rewrite <- Hf.
    apply Reach_step; [constructor | assumption].
Qed.

(** ** The host boundary *)

Lemma bind_ret_inv {A B : Type} (c : Napi.M A) (k : A -> Napi.M B) (b : B) :
  Napi.bind c k = inr b <-> exists a, c = inr a /\ k a = inr b.
Proof.
  destruct c as [e|a]; simpl.
  - split; [discriminate | intros (a & H & _); discriminate].
  - split; [intros H; exists a; auto | intros (a' & [= <-] & H); exact H].
Qed.

Lemma Utf8Value_inv (v : Napi.Value) (s : string) :
  Napi.Utf8Value v = inr s <-> v = Napi.Str s.
Proof.
  destruct v; simpl; split; intros H; try discriminate;
    injection H as <-; reflexivity.
Qed.

Lemma BooleanValue_inv (v : Napi.Value) (b : bool) :
  Napi.BooleanValue v = inr b <-> v = Napi.Bool b.
Proof.
  destruct v; simpl; split; intros H; try discriminate;
    injection H as <-; reflexivity.
Qed.

(** Reading a string property succeeds exactly when the property holds a
    string. *)
Lemma get_string_inv (v : Napi.Value) (key s : string) :
  (x <- Napi.Get v key ;; Napi.Utf8Value x) = inr s <->
  Napi.Get v key = inr (Napi.Str s).
Proof.
  rewrite bind_ret_inv. split.
  - intros (x & Hx & Hs). apply Utf8Value_inv in Hs. now subst x.
  - intros H. exists (Napi.Str s). auto.
Qed.

Lemma get_boolean_inv (v : Napi.Value) (key : string) (b : bool) :
  (x <- Napi.Get v key ;; Napi.BooleanValue x) = inr b <->
  Napi.Get v key = inr (Napi.Bool b).
Proof.
  rewrite bind_ret_inv. split.
  - intros (x & Hx & Hs). apply BooleanValue_inv in Hs. now subst x.
  - intros H. exists (Napi.Bool b). auto.
Qed.

Lemma bind_assoc {A B C : Type} (c : Napi.M A) (k : A -> Napi.M B)
    (h : B -> Napi.M C) :
  Napi.bind (Napi.bind c k) h = Napi.bind c (fun a => Napi.bind (k a) h).
Proof. destruct c; reflexivity. Qed.

(** A state object is accepted exactly when [id] and [name] hold strings
    and [isInitial] and [isFinal] hold booleans, and then the state has
    those four values: nothing is defaulted or coerced. *)
Theorem convertState_iff (v : Napi.Value) (s : State) :
  convertState v = inr s <->
  Napi.Get v "id" = inr (Napi.Str (s_id s)) /\
  Napi.Get v "name" = inr (Napi.Str (s_name s)) /\
  Napi.Get v "isInitial" = inr (Napi.Bool (isInitial s)) /\
  Napi.Get v "isFinal" = inr (Napi.Bool (isFinal s)).
Proof.
  unfold convertState. rewrite <- !get_string_inv, <- !get_boolean_inv.
  destruct s as [i n a f]; simpl.
  destruct (Napi.Get v "id") as [e|x1]; simpl;
    [split; [discriminate | intros (H & _); discriminate]|].
  destruct (Napi.Utf8Value x1) as [e|i']; simpl;
    [split; [discriminate | intros (H & _); discriminate]|].
  destruct (Napi.Get v "name") as [e|x2]; simpl;
    [split; [discriminate | intros (_ & H & _); discriminate]|].
  destruct (Napi.Utf8Value x2) as [e|n']; simpl;
    [split; [discriminate | intros (_ & H & _); discriminate]|].
  destruct (Napi.Get v "isInitial") as [e|x3]; simpl;
    [split; [discriminate | intros (_ & _ & H & _); discriminate]|].
  destruct (Napi.BooleanValue x3) as [e|a']; simpl;
    [split; [discriminate | intros (_ & _ & H & _); discriminate]|].
  destruct (Napi.Get v "isFinal") as [e|x4]; simpl;
    [split; [discriminate | intros (_ & _ & _ & H); discriminate]|].
  destruct (Napi.BooleanValue x4) as [e|f']; simpl;
    [split; [discriminate | intros (_ & _ & _ & H); discriminate]|].
  unfold Napi.ret. split.
  - intros [= -> -> -> ->]. auto.
  - intros ([= ->] & [= ->] & [= ->] & [= ->]). reflexivity.
Qed.

(** An optional label is the empty string when the property is absent or
    [undefined], the string when it holds one, and an error for every
    other value, [null] included. *)
Lemma optionalLabel_inv (v : Napi.Value) (key label : string) :
  optionalLabel v key = inr label <->
  (Napi.Get v key = inr Napi.Undefined /\ label = "") \/
  Napi.Get v key = inr (Napi.Str label).
Proof.
  unfold optionalLabel. destruct (Napi.Get v key) as [e|x]; simpl.
  - split; [discriminate | intros [(H & _)|H]; discriminate].
  - destruct x; simpl; unfold Napi.ret, Napi.throw; split;
      try discriminate;
      try (intros [(H & _)|H]; discriminate).
    + intros [= <-]. left. auto.
    + intros [(_ & ->)|H]; [reflexivity | discriminate].
    + intros [= <-]. right. reflexivity.
    + intros [(H & _)|[= ->]]; [discriminate | reflexivity].
Qed.

(** A transition object is accepted exactly when [id], [from] and [to]
    hold strings and each of [input] and [output] is absent (or
    [undefined]) or holds a string; an absent label is the empty string. *)
Theorem convertTransition_iff (v : Napi.Value) (t : Transition) :
  convertTransition v = inr t <->
  Napi.Get v "id" = inr (Napi.Str (t_id t)) /\
  Napi.Get v "from" = inr (Napi.Str (from t)) /\
  Napi.Get v "to" = inr (Napi.Str (to t)) /\
  ((Napi.Get v "input" = inr Napi.Undefined /\ input t = "") \/
   Napi.Get v "input" = inr (Napi.Str (input t))) /\
  ((Napi.Get v "output" = inr Napi.Undefined /\ output t = "") \/
   Napi.Get v "output" = inr (Napi.Str (output t))).
Proof.
  unfold convertTransition.
  rewrite <- !optionalLabel_inv, <- !get_string_inv.
  destruct t as [i f t' a b]; simpl.
  destruct (Napi.Get v "id") as [e|x1]; simpl;
    [split; [discriminate | intros (H & _); discriminate]|].
  destruct (Napi.Utf8Value x1) as [e|i']; simpl;
    [split; [discriminate | intros (H & _); discriminate]|].
  destruct (Napi.Get v "from") as [e|x2]; simpl;
    [split; [discriminate | intros (_ & H & _); discriminate]|].
  destruct (Napi.Utf8Value x2) as [e|f']; simpl;
    [split; [discriminate | intros (_ & H & _); discriminate]|].
  destruct (Napi.Get v "to") as [e|x3]; simpl;
    [split; [discriminate | intros (_ & _ & H & _); discriminate]|].
  destruct (Napi.Utf8Value x3) as [e|t'']; simpl;
    [split; [discriminate | intros (_ & _ & H & _); discriminate]|].
  destruct (optionalLabel v "input") as [e|a']; simpl;
    [split; [discriminate | intros (_ & _ & _ & H & _); discriminate]|].
  destruct (optionalLabel v "output") as [e|b']; simpl;
    [split; [discriminate | intros (_ & _ & _ & _ & H); discriminate]|].
  unfold Napi.ret. split.
  - intros [= -> -> -> -> ->]. auto.
  - intros ([= ->] & [= ->] & [= ->] & [= ->] & [= ->]). reflexivity.
Qed.

Lemma GetIndex_middle (done rest : list Napi.Value) (v : Napi.Value) :
  Napi.GetIndex (Napi.Arr (done ++ v :: rest)) (List.length done) = v.
Proof. simpl. apply nth_middle. Qed.

(** The indexed loop converts the elements of the array from first to
    last. *)
Lemma forIndex_mapM {A : Type} (convert : Napi.Value -> Napi.M A)
    (rest : list Napi.Value) :
  forall (done : list Napi.Value) (acc : list A),
    Napi.forIndex
      (fun i acc' =>
         x <- convert (Napi.GetIndex (Napi.Arr (done ++ rest)) i) ;;
         Napi.ret (acc' ++ [x]))
      (List.length done) (List.length rest) acc
    = (xs <- mapM convert rest ;; Napi.ret (acc ++ xs)).
Proof.
  induction rest as [|v rest IH]; intros done acc.
  - simpl. now rewrite app_nil_r.
  - cbn [List.length Napi.forIndex mapM]. rewrite GetIndex_middle.
    destruct (convert v) as [e|x]; cbn [Napi.bind]; [reflexivity|].
    replace (done ++ v :: rest) with ((done ++ [v]) ++ rest)
      by (rewrite <- app_assoc; reflexivity).
    replace (S (List.length done)) with (List.length (done ++ [v]))
      by (rewrite length_app; simpl; lia).
    unfold Napi.ret at 1. cbn [Napi.bind]. rewrite IH.
    destruct (mapM convert rest) as [e|xs]; cbn [Napi.bind]; [reflexivity|].
    unfold Napi.ret. now rewrite <- app_assoc.
Qed.

Lemma convertElements_mapM {A : Type} (convert : Napi.Value -> Napi.M A)
    (l : list Napi.Value) :
  convertElements convert (Napi.Arr l) = mapM convert l.
Proof.
  pose proof (forIndex_mapM convert l [] []) as H.
  cbn [app List.length] in H.
  unfold convertElements, Napi.Length. cbn [Napi.bind Napi.ret].
  rewrite H. destruct (mapM convert l); reflexivity.
Qed.

Lemma convertElements_inv {A : Type} (convert : Napi.Value -> Napi.M A)
    (v : Napi.Value) (xs : list A) :
  convertElements convert v = inr xs <->
  exists l, v = Napi.Arr l /\ mapM convert l = inr xs.
Proof.
  split.
  - destruct v; try discriminate. intros H. eexists. split; [reflexivity|].
    now rewrite <- convertElements_mapM.
  - intros (l & -> & H). now rewrite convertElements_mapM.
Qed.

Lemma mapM_Forall2 {A : Type} (convert : Napi.Value -> Napi.M A)
    (l : list Napi.Value) :
  forall xs, mapM convert l = inr xs <->
             Forall2 (fun v x => convert v = inr x) l xs.
Proof.
  induction l as [|v l IH]; intros xs; simpl.
  - split.
    + intros [= <-]. constructor.
    + intros H. inversion H. reflexivity.
  - split.
    + intros H. apply bind_ret_inv in H. destruct H as (x & Hx & H).
      apply bind_ret_inv in H. destruct H as (xs' & Hxs & [= <-]).
      constructor; [assumption | now apply IH].
    + intros H. inversion H as [|? x ? xs' Hx Hxs]; subst.
      apply IH in Hxs. rewrite Hx, Hxs. reflexivity.
Qed.

Lemma mapM_map {A : Type} (convert : Napi.Value -> Napi.M A)
    (encode : A -> Napi.Value) (l : list A) :
  (forall x, convert (encode x) = inr x) ->
  mapM convert (map encode l) = inr l.
Proof.
  intros H. apply mapM_Forall2. induction l; simpl; constructor; auto.
Qed.

Lemma convertState_jsState (s : State) : convertState (jsState s) = inr s.
Proof. destruct s. reflexivity. Qed.

Lemma convertTransition_jsTransition (t : Transition) :
  convertTransition (jsTransition t) = inr t.
Proof.
  destruct t as [i f t' a b]. unfold jsTransition, jsLabel. simpl.
  destruct (String.eqb_spec a "") as [->|Ha];
    destruct (String.eqb_spec b "") as [->|Hb]; reflexivity.
Qed.

Lemma convertJSStateMachine_jsMachine (m : StateMachine) :
  convertJSStateMachine (jsMachine m) = inr (normalizeType m).
Proof.
  unfold convertJSStateMachine, jsMachine. simpl.
  rewrite !convertElements_mapM.
  rewrite (mapM_map convertState jsState _ convertState_jsState). simpl.
  rewrite (mapM_map convertTransition jsTransition _
             convertTransition_jsTransition).
  reflexivity.
Qed.

(** A machine object is accepted exactly when [id], [name] and [type]
    hold strings, [states] and [transitions] hold arrays and every element
    of the two arrays is accepted; the machine then has the converted
    elements in array order, and its type is ["mealy"] when the [type]
    string is ["mealy"] and ["moore"] for every other string. *)
Theorem convertJSStateMachine_iff (v : Napi.Value) (m : StateMachine) :
  convertJSStateMachine v = inr m <->
  exists type ss ts,
    Napi.Get v "id" = inr (Napi.Str (m_id m)) /\
    Napi.Get v "name" = inr (Napi.Str (m_name m)) /\
    Napi.Get v "type" = inr (Napi.Str type) /\
    m_type m = (if (type =? "mealy")%string then "mealy" else "moore") /\
    Napi.Get v "states" = inr (Napi.Arr ss) /\
    Forall2 (fun x s => convertState x = inr s) ss (states m) /\
    Napi.Get v "transitions" = inr (Napi.Arr ts) /\
    Forall2 (fun x t => convertTransition x = inr t) ts (transitions m).
Proof.
  unfold convertJSStateMachine. split.
  - intros H.
    apply bind_ret_inv in H. destruct H as (x1 & G1 & H).
    apply bind_ret_inv in H. destruct H as (i & U1 & H).
    apply bind_ret_inv in H. destruct H as (x2 & G2 & H).
    apply bind_ret_inv in H. destruct H as (n & U2 & H).
    apply bind_ret_inv in H. destruct H as (x3 & G3 & H).
    apply bind_ret_inv in H. destruct H as (ty & U3 & H).
    apply bind_ret_inv in H. destruct H as (x4 & G4 & H).
    apply bind_ret_inv in H. destruct H as (sts & C1 & H).
    apply bind_ret_inv in H. destruct H as (x5 & G5 & H).
    apply bind_ret_inv in H. destruct H as (trs & C2 & H).
    injection H as <-. simpl.
    apply Utf8Value_inv in U1, U2, U3. subst x1 x2 x3.
    apply convertElements_inv in C1, C2.
    destruct C1 as (ss & -> & C1). destruct C2 as (ts & -> & C2).
    apply mapM_Forall2 in C1, C2.
    exists ty, ss, ts. repeat split; assumption.
  - intros (ty & ss & ts & G1 & G2 & G3 & T & G4 & F1 & G5 & F2).
    apply mapM_Forall2 in F1, F2.
    rewrite G1, G2, G3, G4, G5. simpl.
    rewrite !convertElements_mapM, F1. simpl. rewrite F2. simpl.
    destruct m. simpl in *. now rewrite T.
Qed.

(** Passing a machine to the host and converting it back gives the same
    machine, except that a type other than ["mealy"] has become
    ["moore"]; empty labels may be left out of the object. *)
Theorem convert_round_trip (m : StateMachine) :
  convertJSStateMachine (jsMachine m) = inr (normalizeType m) /\
  (m_type m = "mealy" \/ m_type m = "moore" ->
   convertJSStateMachine (jsMachine m) = inr m).
Proof.
  split; [apply convertJSStateMachine_jsMachine|].
  intros H. rewrite convertJSStateMachine_jsMachine. f_equal.
  unfold normalizeType. destruct m as [i n ty ss ts]. simpl in *.
  destruct H as [->| ->]; reflexivity.
Qed.

Lemma sameGraph_normalizeType (m : StateMachine) : sameGraph (normalizeType m) m.
Proof. split; reflexivity. Qed.

(** On the object of a machine the three exported operations do not throw
    and return what the engine computes for that machine: the report, the
    deadlock list, and the reachability answer for the given target.
    Further arguments are ignored. *)
Theorem exports_on_machine_object (what : Napi.status -> string)
    (m : StateMachine) (targetStateId : string) (rest : list Napi.Value) :
  VerifyStateMachine what (jsMachine m :: rest)
    = Napi.Returned (reportObject (generateReport m)) /\
  FindDeadlocks what (jsMachine m :: rest)
    = Napi.Returned (stringArray (findDeadlocks m)) /\
  CheckReachability what (jsMachine m :: Napi.Str targetStateId :: rest)
    = Napi.Returned (reachabilityObject (isStateReachable m targetStateId)).
Proof.
  pose proof (sameGraph_normalizeType m) as S.
  unfold VerifyStateMachine, FindDeadlocks, CheckReachability.
  cbn [List.length Nat.ltb Nat.leb nth Napi.IsObject jsMachine negb orb
       Napi.Utf8Value Napi.bind Napi.ret].
  change (Napi.Obj _) with (jsMachine m).
  rewrite convertJSStateMachine_jsMachine. simpl.
  rewrite (sameGraph_generateReport _ _ S), (sameGraph_findDeadlocks _ _ S).
  unfold isStateReachable. rewrite (sameGraph_reachable _ _ S).
  repeat split.
Qed.

(** How the callbacks reject their arguments.  Without a first argument,
    or with one that is not an object, [VerifyStateMachine] and
    [FindDeadlocks] throw their fixed message.  [CheckReachability] throws
    its fixed message with fewer than two arguments, but does not test
    that the first is an object: a first argument that is not an object,
    and a target that is not a string, both end in the [catch] clause. *)
Theorem argument_errors (what : Napi.status -> string) :
  (forall info,
     info = [] \/ Napi.IsObject (nth 0 info Napi.Undefined) = false ->
     VerifyStateMachine what info
       = Napi.ThrewTypeError "State machine object expected" /\
     FindDeadlocks what info
       = Napi.ThrewTypeError "State machine object expected") /\
  (forall info,
     List.length info < 2 ->
     CheckReachability what info
       = Napi.ThrewTypeError "State machine and target state ID expected") /\
  (forall v target rest,
     Napi.IsObject v = false ->
     exists e, CheckReachability what (v :: target :: rest)
               = Napi.ThrewTypeError ("C++ Error: " ++ what e)) /\
  (forall v target rest,
     (forall s, target <> Napi.Str s) ->
     CheckReachability what (v :: target :: rest)
       = Napi.ThrewTypeError
           ("C++ Error: " ++ what Napi.string_expected)).
Proof.
  split; [|split; [|split]].
  - intros info [->|H]; [split; reflexivity|].
    unfold VerifyStateMachine, FindDeadlocks. rewrite H. simpl.
    rewrite !orb_true_r. split; reflexivity.
  - intros info H. unfold CheckReachability.
    now apply Nat.ltb_lt in H as ->.
  - intros v target rest H. unfold CheckReachability. simpl.
    destruct target; simpl; try (eexists; reflexivity).
    destruct v; simpl in *; try discriminate; eexists; reflexivity.
  - intros v target rest H. unfold CheckReachability. simpl.
    destruct target; simpl; try reflexivity.
    exfalso. now apply (H s).
Qed.

Lemma argument_errors_witness :
  VerifyStateMachine (fun _ => "failed") [Napi.Null]
    = Napi.ThrewTypeError "State machine object expected" /\
  FindDeadlocks (fun _ => "failed") [Napi.Null]
    = Napi.ThrewTypeError "State machine object expected".
Proof.
  apply (argument_errors (fun _ => "failed")). right. reflexivity.
Defined.
